(** * Image extraction and canonicalisation (pkg/engine/context/imageutils.go)

    A shallow embedding of the image utilities of the policy engine context:
    [ImageInfo] and its canonical rendering, the default-domain heuristic,
    [newImageInfo], the per-kind extractors with their JSON pointers, the
    best-effort loop of [convertToImageInfo] and the patch building of
    [MutateResourceWithImageInfo].

    Go strings are byte strings: they are modelled by [string], whose
    characters are the 256 values of [ascii].  A Go [int] that counts the
    elements of a slice is modelled by [Z]; it stays far below [2^63], so no
    wrap-around is written out for it.  A run-time panic (a failed type
    assertion) is an explicit outcome. *)

From Stdlib Require Import String Ascii List ZArith Lia Bool DecimalString.
From Stdlib Require Import Permutation Sorted DecimalPos DecimalZ.
Import ListNotations.

Open Scope list_scope.
Open Scope string_scope.

(* ================================================================== *)
(** * Part I: definitions *)
(* ================================================================== *)

(** ** Go's [strings] and [strconv] functions used by the file *)

Module GoStrings.

(** [forallb] and [existsb] on the bytes of a string. *)
Fixpoint all_bytes (p : ascii -> bool) (s : string) : bool :=
  match s with
  | EmptyString => true
  | String c s' => p c && all_bytes p s'
  end.

Fixpoint any_byte (p : ascii -> bool) (s : string) : bool :=
  match s with
  | EmptyString => false
  | String c s' => p c || any_byte p s'
  end.

Fixpoint map_bytes (f : ascii -> ascii) (s : string) : string :=
  match s with
  | EmptyString => EmptyString
  | String c s' => String (f c) (map_bytes f s')
  end.

(** [s[:n]] and [s[n:]] for an index within bounds. *)
Fixpoint slice_to (s : string) (n : nat) {struct n} : string :=
  match n, s with
  | S n', String c s' => String c (slice_to s' n')
  | _, _ => EmptyString
  end.

Fixpoint slice_from (s : string) (n : nat) {struct n} : string :=
  match n, s with
  | S n', String c s' => slice_from s' n'
  | _, _ => s
  end.

Fixpoint index_byte (c : ascii) (s : string) : option nat :=
  match s with
  | EmptyString => None
  | String a s' =>
      if (a =? c)%char then Some 0%nat else option_map S (index_byte c s')
  end.

Fixpoint last_index_byte (c : ascii) (s : string) : option nat :=
  match s with
  | EmptyString => None
  | String a s' =>
      match last_index_byte c s' with
      | Some n => Some (S n)
      | None => if (a =? c)%char then Some 0%nat else None
      end
  end.

(** [strings.IndexRune(s, r)] for a rune below [utf8.RuneSelf]: the index of
    the first byte [r], or [-1]. *)
Definition IndexRune (s : string) (r : ascii) : Z :=
  match index_byte r s with
  | Some n => Z.of_nat n
  | None => (-1)%Z
  end.

(** [strings.LastIndex(s, sep)] for a one-byte separator. *)
Definition LastIndex (s : string) (sep : ascii) : Z :=
  match last_index_byte sep s with
  | Some n => Z.of_nat n
  | None => (-1)%Z
  end.

Definition mem_byte (c : ascii) (chars : string) : bool :=
  any_byte (fun a => (a =? c)%char) chars.

(** [strings.ContainsAny(s, chars)] for ASCII [chars]. *)
Definition ContainsAny (s chars : string) : bool :=
  any_byte (fun c => mem_byte c chars) s.

(** [strings.Join(elems, sep)]. *)
Definition Join (elems : list string) (sep : string) : string :=
  String.concat sep elems.

(** [strconv.Itoa]. *)
Definition Itoa (i : Z) : string :=
  NilZero.string_of_int (Z.to_int i).

Definition is_upper (c : ascii) : bool := (("A" <=? c) && (c <=? "Z"))%char.
Definition is_lower (c : ascii) : bool := (("a" <=? c) && (c <=? "z"))%char.
Definition is_digit (c : ascii) : bool := (("0" <=? c) && (c <=? "9"))%char.

(** A byte below [utf8.RuneSelf] (0x80). *)
Definition below_RuneSelf (c : ascii) : bool := (nat_of_ascii c <? 128)%nat.

Definition lower_byte (c : ascii) : ascii :=
  if is_upper c then ascii_of_nat (nat_of_ascii c + 32) else c.

Section ToLower.
(** [strings.Map(unicode.ToLower, s)]: the path [strings.ToLower] takes for
    a string with a byte at or above 0x80.  It depends on Go's Unicode
    tables and on UTF-8 decoding, which are left abstract. *)
Variable Map_unicode_ToLower : string -> string.

(** [strings.ToLower]: an all-ASCII string is lower-cased byte by byte. *)
Definition ToLower (s : string) : string :=
  if all_bytes below_RuneSelf s then map_bytes lower_byte s
  else Map_unicode_ToLower s.
End ToLower.

End GoStrings.
Import GoStrings.

(** ** ImageInfo *)

Record ImageInfo := {
  Registry : string;
  Name : string;
  Path : string;
  Tag : string;
  Digest : string;
  JSONPointer : string
}.

(** [(i *ImageInfo) String()]. *)
Definition String_ (i : ImageInfo) : string :=
  let image := Registry i ++ "/" ++ Path i ++ ":" ++ Tag i in
  if negb (Digest i =? "") then Registry i ++ "/" ++ Path i ++ "@" ++ Digest i
  else image.

Record ContainerImage := {
  ci_ImageInfo : ImageInfo;
  ci_Name : string
}.

(** ** addDefaultDomain *)

Section DefaultDomain.
Variable Map_unicode_ToLower : string -> string.

Definition addDefaultDomain (name : string) : string :=
  let i := IndexRune name "/" in
  if (i =? -1)%Z
     || (negb (ContainsAny (slice_to name (Z.to_nat i)) ".:")
         && negb (slice_to name (Z.to_nat i) =? "localhost")
         && (ToLower Map_unicode_ToLower (slice_to name (Z.to_nat i))
             =? slice_to name (Z.to_nat i)))
  then "docker.io/" ++ name
  else name.
End DefaultDomain.

(** ** Outcomes of code that may panic *)

Inductive outcome (A : Type) : Type :=
| Returns (a : A)
| Panics.
Arguments Returns {A} a.
Arguments Panics {A}.

Definition bind {A B : Type} (m : outcome A) (k : A -> outcome B) : outcome B :=
  match m with
  | Returns a => k a
  | Panics => Panics
  end.

Notation "x <- m ;; k" := (bind m (fun x => k))
  (at level 61, m at next level, right associativity).

(** ** Untyped manifests: [map[string]interface{}] trees *)

#[warnings="-register-all"] Inductive value : Type :=
| VNil
| VBool (b : bool)
| VNumber (n : Z)
| VString (s : string)
| VSlice (l : list value)
| VMap (m : list (string * value)).

(** [m[k]] with its "comma ok" result, for a table kept as a list of
    key-value pairs. *)
Fixpoint lookup {A : Type} (k : string) (m : list (string * A)) : option A :=
  match m with
  | [] => None
  | (k', v) :: m' => if k' =? k then Some v else lookup k m'
  end.

(** [unstructured.NestedFieldNoCopy]: [None] stands for [found = false],
    both for a missing field and for the accessor error on a value that is not
    a map; the callers below drop the error. *)
Fixpoint NestedFieldNoCopy (val : value) (fields : list string) : option value :=
  match fields with
  | [] => Some val
  | field :: rest =>
      match val with
      | VMap m =>
          match lookup field m with
          | Some v => NestedFieldNoCopy v rest
          | None => None
          end
      | _ => None
      end
  end.

(** [unstructured.NestedSlice]: found only when the value is a slice. *)
Definition NestedSlice (obj : list (string * value)) (fields : list string)
  : option (list value) :=
  match NestedFieldNoCopy (VMap obj) fields with
  | Some (VSlice l) => Some l
  | _ => None
  end.

(** [Unstructured.GetKind]: the string at ["kind"], or the empty string. *)
Definition GetKind (obj : list (string * value)) : string :=
  match NestedFieldNoCopy (VMap obj) ["kind"] with
  | Some (VString s) => s
  | _ => ""
  end.

(** ** The result of [reference.Parse]

    A [reference.Reference] is tested against three interfaces. [named]
    holds [reference.Domain] and [reference.Path] of a [Named] reference,
    [tagged] the tag of a [Tagged] one, [digested] the digest string of a
    [Digested] one. *)

Record Reference := {
  named : option (string * string);
  tagged : option string;
  digested : option string
}.

(** ** newImageInfo, convertToImageInfo and the extractors *)

Record loop_state := {
  images : list ContainerImage;
  errs : list string;
  index : Z
}.

Record imageExtractor := { fields : list string }.

Section Extraction.
Variable Map_unicode_ToLower : string -> string.

(** [reference.Parse] of github.com/distribution/distribution/reference, an
    imported package: a reference, or the text of the error. *)
Variable Parse : string -> Reference + string.

Definition newImageInfo (image jsonPointer : string) : ImageInfo + string :=
  let image := addDefaultDomain Map_unicode_ToLower image in
  match Parse image with
  | inr err => inr ("bad image: " ++ image ++ ": " ++ err)
  | inl ref =>
      let '(registry, path, name) :=
        match named ref with
        | Some (domain, path) =>
            (domain, path,
             slice_from path (Z.to_nat (LastIndex path "/" + 1)))
        | None => ("", "", "")
        end in
      let tag := match tagged ref with Some t => t | None => "" end in
      let digest := match digested ref with Some d => d | None => "" end in
      (* set default tag *)
      let tag := if (digest =? "") && (tag =? "") then "latest" else tag in
      inl {| Registry := registry;
             Name := name;
             Path := path;
             Tag := tag;
             Digest := digest;
             JSONPointer := jsonPointer |}
  end.

(** One iteration of the loop of [convertToImageInfo].  The [continue] of
    the error branch skips the [index++] at the end of the body. *)
Definition convert_step (jsonPath : string) (st : loop_state) (ctr : value)
  : outcome loop_state :=
  match ctr with
  | VMap container =>
      name <- match lookup "name" container with
              | Some (VString s) => Returns s
              | _ => Panics
              end ;;
      image <- match lookup "image" container with
               | Some (VString s) => Returns s
               | Some _ => Panics
               | None => Returns ""
               end ;;
      let jp := Join [jsonPath; Itoa (index st); "image"] "/" in
      match newImageInfo image jp with
      | inr err =>
          Returns {| images := images st;
                     errs := (errs st ++ [err])%list;
                     index := index st |}
      | inl imageInfo =>
          Returns {| images :=
                       (images st
                        ++ [{| ci_ImageInfo := imageInfo; ci_Name := name |}])%list;
                     errs := errs st;
                     index := (index st + 1)%Z |}
      end
  | _ =>
      Returns {| images := images st;
                 errs := errs st;
                 index := (index st + 1)%Z |}
  end.

Fixpoint convert_loop (jsonPath : string) (containers : list value)
  (st : loop_state) : outcome loop_state :=
  match containers with
  | [] => Returns st
  | ctr :: rest =>
      st' <- convert_step jsonPath st ctr ;;
      convert_loop jsonPath rest st'
  end.

(** The error result is [None] for [nil], and the message otherwise. *)
Definition convertToImageInfo (containers : list value) (jsonPath : string)
  : outcome (list ContainerImage * option string) :=
  st <- convert_loop jsonPath containers
          {| images := []; errs := []; index := 0 |} ;;
  if (List.length (errs st) =? 0)%nat then Returns (images st, None)
  else Returns (images st, Some (Join (errs st) ";")).

(** The error is logged and dropped. *)
Definition extractImageInfos (containers : list value) (jsonPath : string)
  : outcome (list ContainerImage) :=
  r <- convertToImageInfo containers jsonPath ;;
  Returns (fst r).

Definition extract (i : imageExtractor) (tag : string)
  (resource : list (string * value)) : outcome (list ContainerImage) :=
  let f := (fields i ++ [tag])%list in
  match NestedSlice resource f with
  | Some containers => extractImageInfos containers ("/" ++ Join f "/")
  | None => Returns []
  end.

Definition extractors : list (string * imageExtractor) :=
  [ ("Pod", {| fields := ["spec"] |});
    ("CronJob",
     {| fields := ["spec"; "jobTemplate"; "spec"; "template"; "spec"] |});
    ("Deployment", {| fields := ["spec"; "template"; "spec"] |});
    ("DaemonSet", {| fields := ["spec"; "template"; "spec"] |});
    ("Job", {| fields := ["spec"; "template"; "spec"] |});
    ("StatefulSet", {| fields := ["spec"; "template"; "spec"] |}) ].

(** [extractors[kind]]: a missing key gives the zero [imageExtractor]. *)
Definition extractors_at (kind : string) : imageExtractor :=
  match lookup kind extractors with
  | Some e => e
  | None => {| fields := [] |}
  end.

Definition extractImageInfo (resource : list (string * value))
  : outcome (list ContainerImage * list ContainerImage * list ContainerImage) :=
  let extractor := extractors_at (GetKind resource) in
  initContainersImgs <- extract extractor "initContainers" resource ;;
  containersImgs <- extract extractor "containers" resource ;;
  ephemeralContainersImgs <- extract extractor "ephemeralContainers" resource ;;
  Returns (initContainersImgs, containersImgs, ephemeralContainersImgs).
End Extraction.

(** ** Images and MutateResourceWithImageInfo *)

(** A [map[string]ImageInfo]: pairs with distinct keys.  [m[k] = v] replaces
    the value of an existing key and adds a missing one. *)
Definition gomap : Type := list (string * ImageInfo).

Fixpoint map_set (k : string) (v : ImageInfo) (m : gomap) : gomap :=
  match m with
  | [] => [(k, v)]
  | (k', v') :: m' =>
      if k' =? k then (k, v) :: m' else (k', v') :: map_set k v m'
  end.

Record Images := {
  InitContainers : gomap;
  Containers : gomap;
  EphemeralContainers : gomap
}.

Definition collect (imgs : list ContainerImage) : gomap :=
  fold_left (fun m resource => map_set (ci_Name resource) (ci_ImageInfo resource) m)
    imgs [].

Definition newImages
  (initContainersImgs containersImgs ephemeralContainersImgs : list ContainerImage)
  : Images :=
  {| InitContainers := collect initContainersImgs;
     Containers := collect containersImgs;
     EphemeralContainers := collect ephemeralContainersImgs |}.

(** The double quote, byte 34. *)
Definition quote : string := String "034" EmptyString.

(** The closure [buildJSONPatch]:
    [fmt.Sprintf] of the template
    [{ "op": "%s", "path": "%s", "value":"%s" }]. *)
Definition buildJSONPatch (op path value : string) : string :=
  "{ " ++ quote ++ "op" ++ quote ++ ": " ++ quote ++ op ++ quote
  ++ ", " ++ quote ++ "path" ++ quote ++ ": " ++ quote ++ path ++ quote
  ++ ", " ++ quote ++ "value" ++ quote ++ ":" ++ quote ++ value ++ quote
  ++ " }".

Section Mutate.
(** The state behind the [Interface] value [ctx], and [ctx.ImageInfo()]. *)
Variable Context_ : Type.
Variable ctx_ImageInfo : Context_ -> option Images.

(** The order in which one run of [range] visits the entries of a map; Go
    leaves it unspecified. *)
Variable range : gomap -> gomap.

(** The JSON-patch library behind [ApplyPatches]: the patched document, or
    the text of an error. *)
Variable jsonpatch_apply : string -> list string -> string + string.

(** [AddResource(ctx, dataRaw)] of the same package, which is not under
    src/: the new state of the context and the error. *)
Variable AddResource : Context_ -> string -> Context_ * option string.


(** One [for _, info := range m] loop appending to [patches]. *)
Definition append_patches (patches : list string) (m : gomap) : list string :=
  fold_left
    (fun patches kv =>
       (patches
        ++ [buildJSONPatch "replace" (JSONPointer (snd kv)) (String_ (snd kv))])%list)
    (range m) patches.

(** The three loops of [MutateResourceWithImageInfo]. *)
Definition image_patches (images : Images) : list string :=
  let patches := [] in
  let patches := append_patches patches (Containers images) in
  let patches := append_patches patches (InitContainers images) in
  let patches := append_patches patches (EphemeralContainers images) in
  patches.

End Mutate.

(** ** The reference grammar *)

Module reference.

(** [reference.Parse] belongs to the imported package
    github.com/distribution/distribution/reference and is not under src/.
    The spec (4.1) gives the grammar [[domain '/'] path] followed by an
    optional [':' tag] and an optional ['@' digest], with a digest of the form
    [algorithm:hex]; the character classes, the length bounds and the error
    texts below are those of that package's grammar and of go-digest:

      reference        := name [ ":" tag ] [ "@" digest ]
      name             := [domain '/'] path-component ['/' path-component]*
      domain           := domain-component ['.' domain-component]* [':' port]
      domain-component := [a-zA-Z0-9] | [a-zA-Z0-9][a-zA-Z0-9-]*[a-zA-Z0-9]
      port             := [0-9]+
      path-component   := [a-z0-9]+ (separator [a-z0-9]+)*
      separator        := [_.] | __ | [-]*
      tag              := [\w][\w.-]{0,127}
      digest           := algorithm ":" [0-9a-fA-F]{32,}

    Each anchored regular expression is written as a deterministic automaton
    over the bytes of the string.  No byte of a name or tag is ['@'], a
    [':'] inside a name belongs to the port and is followed by a ['/'], and
    no tag holds a ['/'] or a [':'], so the three groups of the reference
    expression are found by cutting at the first ['@'] and at the last
    [':'] of what precedes it. *)

(** The run of an automaton from state [q]. *)
Fixpoint run {Q : Type} (step : Q -> ascii -> option Q) (q : Q) (s : string)
  : option Q :=
  match s with
  | EmptyString => Some q
  | String c s' =>
      match step q c with
      | Some q' => run step q' s'
      | None => None
      end
  end.

(** [a-z0-9], [a-zA-Z0-9], [\w], [[:xdigit:]] and [a-f0-9]. *)
Definition alpha_numeric (c : ascii) : bool := is_lower c || is_digit c.
Definition alnum (c : ascii) : bool := is_lower c || is_upper c || is_digit c.
Definition word (c : ascii) : bool := alnum c || (c =? "_")%char.
Definition xdigit (c : ascii) : bool :=
  (is_digit c || (("a" <=? c) && (c <=? "f")) || (("A" <=? c) && (c <=? "F")))%char.
Definition lower_hex (c : ascii) : bool :=
  (is_digit c || (("a" <=? c) && (c <=? "f")))%char.

(** [s] cut at the first and at the last byte [c]. *)
Fixpoint split_first (c : ascii) (s : string) : string * option string :=
  match s with
  | EmptyString => (EmptyString, None)
  | String a s' =>
      if (a =? c)%char then (EmptyString, Some s')
      else let (pre, post) := split_first c s' in (String a pre, post)
  end.

Fixpoint split_last (c : ascii) (s : string) : string * option string :=
  match s with
  | EmptyString => (EmptyString, None)
  | String a s' =>
      match split_last c s' with
      | (pre, Some post) => (String a pre, Some post)
      | (_, None) => if (a =? c)%char then (EmptyString, Some s') else (s, None)
      end
  end.

(** path-component ['/' path-component]* *)
Inductive path_state := PStart | PAlnum | PDot | PUnder | PUnder2 | PHyphen.

Definition path_step (q : path_state) (c : ascii) : option path_state :=
  match q with
  | PStart | PDot | PUnder2 => if alpha_numeric c then Some PAlnum else None
  | PAlnum =>
      if alpha_numeric c then Some PAlnum
      else if (c =? ".")%char then Some PDot
      else if (c =? "_")%char then Some PUnder
      else if (c =? "-")%char then Some PHyphen
      else if (c =? "/")%char then Some PStart
      else None
  | PUnder =>
      if alpha_numeric c then Some PAlnum
      else if (c =? "_")%char then Some PUnder2
      else None
  | PHyphen =>
      if alpha_numeric c then Some PAlnum
      else if (c =? "-")%char then Some PHyphen
      else None
  end.

Definition match_path (s : string) : bool :=
  match run path_step PStart s with
  | Some PAlnum => true
  | _ => false
  end.

(** domain-component ['.' domain-component]* [':' port] *)
Inductive domain_state := DStart | DAlnum | DHyphen | DColon | DPort.

Definition domain_step (q : domain_state) (c : ascii) : option domain_state :=
  match q with
  | DStart => if alnum c then Some DAlnum else None
  | DAlnum =>
      if alnum c then Some DAlnum
      else if (c =? "-")%char then Some DHyphen
      else if (c =? ".")%char then Some DStart
      else if (c =? ":")%char then Some DColon
      else None
  | DHyphen =>
      if alnum c then Some DAlnum
      else if (c =? "-")%char then Some DHyphen
      else None
  | DColon | DPort => if is_digit c then Some DPort else None
  end.

Definition match_domain (s : string) : bool :=
  match run domain_step DStart s with
  | Some DAlnum | Some DPort => true
  | _ => false
  end.

(** Modelled from the spec: [anchoredNameRegexp] of the reference package,
    which is not under src/, in the grammar "[domain '/'] path" of 4.1: the
    groups (domain, path) of a name.  The optional domain group is tried
    first. *)
Definition anchoredNameRegexp (name : string) : option (string * string) :=
  match split_first "/" name with
  | (domain, Some path) =>
      if match_domain domain && match_path path then Some (domain, path)
      else if match_path name then Some (EmptyString, name)
      else None
  | (_, None) => if match_path name then Some (EmptyString, name) else None
  end.

(** [TagRegexp], anchored. *)
Definition match_tag (s : string) : bool :=
  match s with
  | EmptyString => false
  | String c s' =>
      word c
      && all_bytes (fun a => word a || (a =? ".")%char || (a =? "-")%char) s'
      && (String.length s' <=? 127)%nat
  end.

(** The algorithm of [DigestRegexp]:
    [A-Za-z][A-Za-z0-9]* with separators [-_+.]. *)
Inductive algo_state := AStart | AComp.

Definition is_algo_separator (c : ascii) : bool :=
  ((c =? "-") || (c =? "_") || (c =? "+") || (c =? "."))%char.

Definition algo_step (q : algo_state) (c : ascii) : option algo_state :=
  match q with
  | AStart => if is_lower c || is_upper c then Some AComp else None
  | AComp =>
      if alnum c then Some AComp
      else if is_algo_separator c then Some AStart
      else None
  end.

(** [DigestRegexp], anchored. *)
Definition match_digest (s : string) : bool :=
  match split_first ":" s with
  | (algo, Some hex) =>
      match run algo_step AStart algo with
      | Some AComp => all_bytes xdigit hex && (32 <=? String.length hex)%nat
      | _ => false
      end
  | (_, None) => false
  end.

(** Modelled from the spec: [ReferenceRegexp] of the reference package,
    which is not under src/, in the grammar of 4.1: the groups
    (name, tag, digest); a group that takes no part in the match is the empty
    string. *)
Definition ReferenceRegexp (s : string) : option (string * string * string) :=
  let (body, digest) := split_first "@" s in
  let (name, tag) :=
    match split_last ":" body with
    | (pre, Some post) =>
        if any_byte (fun a => (a =? "/")%char) post then (body, None)
        else (pre, Some post)
    | (_, None) => (body, None)
    end in
  match anchoredNameRegexp name with
  | None => None
  | Some _ =>
      match tag, digest with
      | None, None => Some (name, EmptyString, EmptyString)
      | Some t, None =>
          if match_tag t then Some (name, t, EmptyString) else None
      | None, Some d =>
          if match_digest d then Some (name, EmptyString, d) else None
      | Some t, Some d =>
          if match_tag t && match_digest d then Some (name, t, d) else None
      end
  end.

Definition ErrReferenceInvalidFormat : string := "invalid reference format".
Definition ErrNameContainsUppercase : string := "repository name must be lowercase".
Definition ErrNameEmpty : string := "repository name must have at least one component".
Definition ErrNameTooLong : string := "repository name must not be more than 255 characters".
Definition ErrDigestInvalidFormat : string := "invalid checksum digest format".
Definition ErrDigestInvalidLength : string := "invalid checksum digest length".
Definition ErrDigestUnsupported : string := "unsupported digest algorithm".

Definition NameTotalLengthMax : nat := 255.

(** go-digest: the registered algorithms with the size of their sums. *)
Definition algorithms : list (string * nat) :=
  [("sha256", 32%nat); ("sha384", 48%nat); ("sha512", 64%nat)].

(** go-digest's [DigestRegexpAnchored]:
    [a-z0-9]+ with separators [.+_-], a colon, then [a-zA-Z0-9=_-]+. *)
Definition digest_algo_step (q : algo_state) (c : ascii) : option algo_state :=
  match q with
  | AStart => if alpha_numeric c then Some AComp else None
  | AComp =>
      if alpha_numeric c then Some AComp
      else if is_algo_separator c then Some AStart
      else None
  end.

Definition DigestRegexpAnchored (s : string) : bool :=
  match split_first ":" s with
  | (algo, Some encoded) =>
      match run digest_algo_step AStart algo with
      | Some AComp =>
          negb (encoded =? "")
          && all_bytes
               (fun a => alnum a || (a =? "=")%char || (a =? "_")%char
                         || (a =? "-")%char) encoded
      | _ => false
      end
  | (_, None) => false
  end.

(** Modelled from the spec: [digest.Parse] of go-digest, which is not under
    src/ ("malformed digest algorithm/length", 4.1), that is
    [Digest.Validate]: [None] for a valid digest. *)
Definition digest_Validate (s : string) : option string :=
  let i := IndexRune s ":" in
  if (i <=? 0)%Z || (i + 1 =? Z.of_nat (String.length s))%Z
  then Some ErrDigestInvalidFormat
  else
    let algorithm := slice_to s (Z.to_nat i) in
    let encoded := slice_from s (Z.to_nat (i + 1)) in
    match lookup algorithm algorithms with
    | None =>
        if negb (DigestRegexpAnchored s) then Some ErrDigestInvalidFormat
        else Some ErrDigestUnsupported
    | Some size =>
        if negb (size * 2 =? String.length encoded)%nat
        then Some ErrDigestInvalidLength
        else if all_bytes lower_hex encoded then None
        else Some ErrDigestInvalidFormat
    end.

(** [getBestReferenceType]: [None] is the nil reference. *)
Definition getBestReferenceType (domain path tag digest : string)
  : option Reference :=
  if (domain =? "") && (path =? "") then
    if negb (digest =? "")
    then Some {| named := None; tagged := None; digested := Some digest |}
    else None
  else if tag =? "" then
    if negb (digest =? "")
    then Some {| named := Some (domain, path); tagged := None;
                 digested := Some digest |}
    else Some {| named := Some (domain, path); tagged := None;
                 digested := None |}
  else if digest =? "" then
    Some {| named := Some (domain, path); tagged := Some tag; digested := None |}
  else
    Some {| named := Some (domain, path); tagged := Some tag;
            digested := Some digest |}.

Section Parse.
Variable Map_unicode_ToLower : string -> string.

(** Modelled from the spec: [reference.Parse], which is not under src/:
    "parse(reference: string) -> ImageReference | ParseError" (4.1), with
    the error values of the package. *)
Definition Parse (s : string) : Reference + string :=
  match ReferenceRegexp s with
  | None =>
      if s =? "" then inr ErrNameEmpty
      else
        match ReferenceRegexp (ToLower Map_unicode_ToLower s) with
        | Some _ => inr ErrNameContainsUppercase
        | None => inr ErrReferenceInvalidFormat
        end
  | Some (name, tag, digest) =>
      if (NameTotalLengthMax <? String.length name)%nat then inr ErrNameTooLong
      else
        let (domain, path) :=
          match anchoredNameRegexp name with
          | Some (domain, path) => (domain, path)
          | None => (EmptyString, name)
          end in
        match (if negb (digest =? "") then digest_Validate digest else None) with
        | Some err => inr err
        | None =>
            match getBestReferenceType domain path tag digest with
            | Some r => inl r
            | None => inr ErrNameEmpty
            end
        end
  end.
End Parse.

End reference.

(** ** The program with the reference grammar plugged in *)

Definition image_of (low : string -> string) (image jsonPointer : string)
  : ImageInfo + string :=
  newImageInfo low (reference.Parse low) image jsonPointer.

(** The Unicode path of [strings.ToLower] used to evaluate the program on
    ASCII inputs, where [ToLower] never takes it. *)
Definition ascii_only (s : string) : string := s.

(** ** Notions used to state the properties *)

(** The byte [c] occurs in [s]. *)
Fixpoint occurs (c : ascii) (s : string) : Prop :=
  match s with
  | EmptyString => False
  | String a s' => a = c \/ occurs c s'
  end.

(** [seg] is what precedes the first ['/'] of [s]. *)
Definition leading_segment (s seg : string) : Prop :=
  ~ occurs "/" seg /\ exists rest, s = seg ++ String "/" rest.

(** The segment does not look like a registry domain. *)
Definition not_a_domain (low : string -> string) (seg : string) : Prop :=
  ~ occurs "." seg /\ ~ occurs ":" seg /\ seg <> "localhost"
  /\ ToLower low seg = seg.

Definition gets_default_domain (low : string -> string) (s : string) : Prop :=
  ~ occurs "/" s
  \/ exists seg, leading_segment s seg /\ not_a_domain low seg.

(** The bytes a domain, a path and a tag are made of. *)
Definition domain_byte (c : ascii) : bool :=
  (reference.alnum c || (c =? "-") || (c =? ".") || (c =? ":"))%char.

Definition path_byte (c : ascii) : bool :=
  (reference.alpha_numeric c || (c =? ".") || (c =? "_") || (c =? "-") || (c =? "/"))%char.

Definition tag_byte (c : ascii) : bool :=
  (reference.word c || (c =? ".") || (c =? "-"))%char.

(** The short name of a repository path: what follows its last ['/']. *)
Definition short_name (path : string) : string :=
  slice_from path (Z.to_nat (LastIndex path "/" + 1)).

(** The round trip of a reference string [R]: when it parses, so does the
    canonical string of the result, to the same registry, path, name, tag and
    digest. *)
Definition round_trip (low : string -> string) (R : string) : Prop :=
  forall jsonPointer info,
    image_of low R jsonPointer = inl info ->
    exists info',
      image_of low (String_ info) jsonPointer = inl info'
      /\ Registry info' = Registry info
      /\ Path info' = Path info
      /\ Name info' = Name info
      /\ Tag info' = Tag info
      /\ Digest info' = Digest info.

(** What the loop of [convertToImageInfo] reads from one element: nothing
    for an element that is not a map, the name and the image string of a
    container (the image is [""] when the field is absent), or a field of the
    wrong type. *)
Inductive entry : Type :=
| NotAMap
| Container (name image : string)
| IllTyped.

Definition classify (ctr : value) : entry :=
  match ctr with
  | VMap m =>
      match lookup "name" m, lookup "image" m with
      | Some (VString n), Some (VString i) => Container n i
      | Some (VString n), None => Container n ""
      | _, _ => IllTyped
      end
  | _ => NotAMap
  end.

(** The (name, image) pairs of the containers of a list, in order. *)
Fixpoint containers_of (cs : list value) : list (string * string) :=
  match cs with
  | [] => []
  | ctr :: rest =>
      match classify ctr with
      | Container n i => (n, i) :: containers_of rest
      | _ => containers_of rest
      end
  end.

Section EntryOutcome.
Variable low : string -> string.
Variable Parse : string -> Reference + string.

(** The image string of a container parses. *)
Definition parses (e : string * string) : bool :=
  match newImageInfo low Parse (snd e) "" with
  | inl _ => true
  | inr _ => false
  end.

(** The messages of the containers whose image does not parse, in order. *)
Definition parse_errors (es : list (string * string)) : list string :=
  flat_map
    (fun e =>
       match newImageInfo low Parse (snd e) "" with
       | inl _ => []
       | inr msg => [msg]
       end) es.

(** [ci] is the result for container [e]: its name, with the image
    information [newImageInfo] gives for its image string at some
    pointer. *)
Definition result_of (ci : ContainerImage) (e : string * string) : Prop :=
  ci_Name ci = fst e
  /\ exists jp, newImageInfo low Parse (snd e) jp = inl (ci_ImageInfo ci).
End EntryOutcome.

(** The operation [MutateResourceWithImageInfo] builds for one image. *)
Definition patch_of (info : ImageInfo) : string :=
  buildJSONPatch "replace" (JSONPointer info) (String_ info).


(** ** Manifests used as examples *)

(** A Pod whose first container has an image string that does not parse. *)
Definition pod_with_bad_first : list (string * value) :=
  [ ("kind", VString "Pod");
    ("spec",
     VMap [ ("containers",
             VSlice [ VMap [("name", VString "first");
                            ("image", VString "bad image")];
                      VMap [("name", VString "second");
                            ("image", VString "busybox")] ]) ]) ].

(** The two containers of that Pod. *)
Definition bad_first_containers : list value :=
  [ VMap [("name", VString "first"); ("image", VString "bad image")];
    VMap [("name", VString "second"); ("image", VString "busybox")] ].

(** A container without image, and one without name. *)
Definition container_without_image : list (string * value) :=
  [("name", VString "sidecar")].

Definition container_without_name : list (string * value) :=
  [("image", VString "busybox")].

(** The message of [newImageInfo] for the empty image string. *)
Definition ErrNoImage : string :=
  "bad image: docker.io/: invalid reference format".

(** A manifest of a kind without extractor, with a top-level "containers". *)
Definition configmap_with_containers : list (string * value) :=
  [ ("kind", VString "ConfigMap");
    ("containers",
     VSlice [ VMap [("name", VString "a"); ("image", VString "busybox")] ]) ].

(** A Deployment with one container. *)
Definition deployment_nginx : list (string * value) :=
  [ ("kind", VString "Deployment");
    ("spec",
     VMap [ ("template",
             VMap [ ("spec",
                     VMap [ ("containers",
                             VSlice [ VMap [("name", VString "web");
                                            ("image", VString "nginx:1.25")]
                                    ]) ]) ]) ]) ].

(** A well-formed sha256 digest. *)
Definition sha256_a : string :=
  "sha256:aaaaaaaaaaaaaaaaaaaaaaaaaaaaaaaaaaaaaaaaaaaaaaaaaaaaaaaaaaaaaaaa".

(** The image information of "busybox". *)
Definition busybox_latest (jsonPointer : string) : ImageInfo :=
  {| Registry := "docker.io"; Name := "busybox"; Path := "busybox";
     Tag := "latest"; Digest := ""; JSONPointer := jsonPointer |}.

(** ** Notions used to state further properties *)

(** The image of the last container named [k] in a list. *)
Fixpoint last_named (k : string) (imgs : list ContainerImage) : option ImageInfo :=
  match imgs with
  | [] => None
  | r :: rest =>
      match last_named k rest with
      | Some i => Some i
      | None => if ci_Name r =? k then Some (ci_ImageInfo r) else None
      end
  end.

(** The entry a container image gives rise to in a map of [newImages]. *)
Definition entry_of (r : ContainerImage) : string * ImageInfo :=
  (ci_Name r, ci_ImageInfo r).

(** A map built from [imgs] that lost none of them. *)
Definition keeps_all (m : gomap) (imgs : list ContainerImage) : Prop :=
  (List.length m <= List.length imgs)%nat
  /\ (List.length m = List.length imgs <-> NoDup (map ci_Name imgs))
  /\ (NoDup (map ci_Name imgs) -> m = map entry_of imgs).

(** The pointer of the image field of element [k] of the list at [jsonPath]. *)
Definition pointer_at (jsonPath : string) (k : Z) : string :=
  Join [jsonPath; Itoa k; "image"] "/".

(** An [ImageInfo] with another pointer. *)
Definition relocate (i : ImageInfo) (jsonPointer : string) : ImageInfo :=
  {| Registry := Registry i; Name := Name i; Path := Path i; Tag := Tag i;
     Digest := Digest i; JSONPointer := jsonPointer |}.

(** A container map with a field the loop cannot read: a "name" that is
    absent or not a string, or an "image" that is present and not a
    string. *)
Definition unreadable (m : list (string * value)) : Prop :=
  (forall s, lookup "name" m <> Some (VString s))
  \/ (exists v, lookup "image" m = Some v /\ forall s, v <> VString s).

(** Two container images that differ at most in their pointer. *)
Definition same_but_pointer (a b : ContainerImage) : Prop :=
  ci_Name a = ci_Name b
  /\ ci_ImageInfo b
     = relocate (ci_ImageInfo a) (JSONPointer (ci_ImageInfo b)).

(** Two outcomes of [convertToImageInfo] that differ at most in the
    pointers of their images. *)
Definition same_but_pointers
  (r1 r2 : outcome (list ContainerImage * option string)) : Prop :=
  match r1, r2 with
  | Returns (imgs1, err1), Returns (imgs2, err2) =>
      Forall2 same_but_pointer imgs1 imgs2 /\ err1 = err2
  | Panics, Panics => True
  | _, _ => False
  end.

(** A copy of the containers of [pod_with_bad_first] with further fields. *)
Definition bad_first_with_ports : list value :=
  [ VMap [("name", VString "first"); ("image", VString "bad image");
          ("ports", VSlice [VNumber 80])];
    VMap [("imagePullPolicy", VString "Always"); ("name", VString "second");
          ("image", VString "busybox")] ].

Definition ErrBadImage : string :=
  "bad image: docker.io/bad image: invalid reference format".





(** ** The client decorators (package client)

    A [KyvernoV2Interface] value is the record of its two methods.  The
    resource clients, the metrics and logging types and the decorators of the
    package policyexceptions are imported: they are parameters. *)

Module client.
Section Decorators.
Variables rest_Interface PolicyExceptionInterface : Type.
Variables MetricsConfigManager ClientType Recorder Logger : Type.

(** [metrics.NamespacedClientQueryRecorder]. *)
Variable NamespacedClientQueryRecorder :
  MetricsConfigManager -> string -> string -> ClientType -> Recorder.

(** [policyexceptions.WithMetrics], [WithTracing] and [WithLogging]. *)
Variable policyexceptions_WithMetrics :
  PolicyExceptionInterface -> Recorder -> PolicyExceptionInterface.
Variable policyexceptions_WithTracing :
  PolicyExceptionInterface -> string -> string -> PolicyExceptionInterface.
Variable policyexceptions_WithLogging :
  PolicyExceptionInterface -> Logger -> PolicyExceptionInterface.

(** [logr.Logger.WithValues] with one key and one string value. *)
Variable WithValues : Logger -> string -> string -> Logger.

Record KyvernoV2Interface := {
  RESTClient : rest_Interface;
  PolicyExceptions : string -> PolicyExceptionInterface
}.

Definition WithMetrics (inner : KyvernoV2Interface)
  (metrics : MetricsConfigManager) (clientType : ClientType)
  : KyvernoV2Interface :=
  {| RESTClient := RESTClient inner;
     PolicyExceptions := fun namespace =>
       let recorder :=
         NamespacedClientQueryRecorder metrics namespace "PolicyException"
           clientType in
       policyexceptions_WithMetrics (PolicyExceptions inner namespace) recorder |}.

Definition WithTracing (inner : KyvernoV2Interface) (client : string)
  : KyvernoV2Interface :=
  {| RESTClient := RESTClient inner;
     PolicyExceptions := fun namespace =>
       policyexceptions_WithTracing (PolicyExceptions inner namespace) client
         "PolicyException" |}.

Definition WithLogging (inner : KyvernoV2Interface) (logger : Logger)
  : KyvernoV2Interface :=
  {| RESTClient := RESTClient inner;
     PolicyExceptions := fun namespace =>
       policyexceptions_WithLogging (PolicyExceptions inner namespace)
         (WithValues (WithValues logger "resource" "PolicyExceptions")
            "namespace" namespace) |}.

(** One of the three decorators, with its arguments. *)
Inductive decorator : Type :=
| Metrics (metrics : MetricsConfigManager) (clientType : ClientType)
| Tracing (client : string)
| Logging (logger : Logger).

Definition decorate (d : decorator) (inner : KyvernoV2Interface)
  : KyvernoV2Interface :=
  match d with
  | Metrics metrics clientType => WithMetrics inner metrics clientType
  | Tracing client => WithTracing inner client
  | Logging logger => WithLogging inner logger
  end.

(** The decorator of the package policyexceptions that corresponds to a
    decorator of the client, for the resource client of one namespace. *)
Definition decorate_exceptions (namespace : string) (d : decorator)
  (pe : PolicyExceptionInterface) : PolicyExceptionInterface :=
  match d with
  | Metrics metrics clientType =>
      policyexceptions_WithMetrics pe
        (NamespacedClientQueryRecorder metrics namespace "PolicyException"
           clientType)
  | Tracing client => policyexceptions_WithTracing pe client "PolicyException"
  | Logging logger =>
      policyexceptions_WithLogging pe
        (WithValues (WithValues logger "resource" "PolicyExceptions")
           "namespace" namespace)
  end.
End Decorators.
End client.

(* ================================================================== *)
(** * Part II: properties *)
(* ================================================================== *)

(** ** Strings *)

Lemma append_assoc (a b c : string) : (a ++ b) ++ c = a ++ b ++ c.
Proof. induction a as [|x a IH]; simpl; [reflexivity | now rewrite IH]. Qed.

Lemma append_nil_r (a : string) : a ++ "" = a.
Proof. induction a as [|x a IH]; simpl; [reflexivity | now rewrite IH]. Qed.

Lemma append_cons (c : ascii) (a b : string) :
  String c a ++ b = String c (a ++ b).
Proof. reflexivity. Qed.

Lemma any_byte_false (p : ascii -> bool) (s : string) :
  any_byte p s = false <-> forall c, occurs c s -> p c = false.
Proof.
  induction s as [|a s IH]; simpl.
  - split; [intros _ c [] | reflexivity].
  - rewrite orb_false_iff, IH. split.
    + intros [Ha Hs] c [<-|Hc]; auto.
    + intros H; split; [apply H; now left | intros c Hc; apply H; now right].
Qed.

Lemma all_bytes_true (p : ascii -> bool) (s : string) :
  all_bytes p s = true <-> forall c, occurs c s -> p c = true.
Proof.
  induction s as [|a s IH]; simpl.
  - split; [intros _ c [] | reflexivity].
  - rewrite andb_true_iff, IH. split.
    + intros [Ha Hs] c [<-|Hc]; auto.
    + intros H; split; [apply H; now left | intros c Hc; apply H; now right].
Qed.

Lemma occurs_app (c : ascii) (a b : string) :
  occurs c (a ++ b) <-> occurs c a \/ occurs c b.
Proof.
  induction a as [|x a IH]; simpl; [tauto | rewrite IH; tauto].
Qed.

Lemma not_occurs_any (c : ascii) (s : string) :
  ~ occurs c s <-> any_byte (fun a => (a =? c)%char) s = false.
Proof.
  rewrite any_byte_false. split.
  - intros H a Ha. destruct (Ascii.eqb_spec a c); [subst; contradiction | reflexivity].
  - intros H Hc. specialize (H c Hc). now rewrite Ascii.eqb_refl in H.
Qed.

Lemma slice_to_cons (a : ascii) (s : string) (n : nat) :
  slice_to (String a s) (S n) = String a (slice_to s n).
Proof. reflexivity. Qed.

Lemma slice_from_cons (a : ascii) (s : string) (n : nat) :
  slice_from (String a s) (S n) = slice_from s n.
Proof. reflexivity. Qed.

Lemma index_byte_None (c : ascii) (s : string) :
  index_byte c s = None -> ~ occurs c s.
Proof.
  induction s as [|a s IH]; simpl; [tauto|].
  destruct (Ascii.eqb_spec a c) as [->|Hne]; [discriminate|].
  destruct (index_byte c s); simpl; [discriminate|].
  intros _ [H|H]; [contradiction | now apply IH].
Qed.

Lemma index_byte_Some (c : ascii) (s : string) (n : nat) :
  index_byte c s = Some n ->
  ~ occurs c (slice_to s n)
  /\ s = slice_to s n ++ String c (slice_from s (S n)).
Proof.
  revert n. induction s as [|a s IH]; simpl; [discriminate|].
  intros n. destruct (Ascii.eqb_spec a c) as [->|Hne].
  - intros [= <-]. simpl. split; [tauto | reflexivity].
  - destruct (index_byte c s) as [m|]; simpl; [|discriminate].
    intros [= <-]. destruct (IH m eq_refl) as [Hno Heq].
    rewrite slice_to_cons. split.
    + intros [H|H]; [contradiction | now apply Hno].
    + rewrite append_cons. f_equal. exact Heq.
Qed.

Lemma index_byte_app (c : ascii) (a b : string) :
  ~ occurs c a -> index_byte c (a ++ String c b) = Some (String.length a).
Proof.
  induction a as [|x a IH]; simpl; intros H.
  - now rewrite Ascii.eqb_refl.
  - destruct (Ascii.eqb_spec x c) as [->|Hne]; [exfalso; apply H; now left|].
    rewrite IH; [reflexivity | tauto].
Qed.

Lemma index_byte_absent (c : ascii) (s : string) :
  ~ occurs c s -> index_byte c s = None.
Proof.
  intros H. destruct (index_byte c s) as [n|] eqn:E; [|reflexivity].
  destruct (index_byte_Some _ _ _ E) as [_ Heq]. exfalso. apply H.
  rewrite Heq. apply occurs_app. right. now left.
Qed.

Lemma slice_to_app (a b : string) : slice_to (a ++ b) (String.length a) = a.
Proof. induction a as [|x a IH]; simpl; [now destruct b | now rewrite IH]. Qed.

Lemma slice_from_app (a b : string) : slice_from (a ++ b) (String.length a) = b.
Proof. induction a as [|x a IH]; simpl; [now destruct b | exact IH]. Qed.

Lemma length_append (a b : string) :
  String.length (a ++ b) = (String.length a + String.length b)%nat.
Proof. induction a as [|x a IH]; simpl; [reflexivity | now rewrite IH]. Qed.

Lemma append_neq_self (p s : string) : p <> "" -> p ++ s <> s.
Proof.
  intros Hp E. apply (f_equal String.length) in E. rewrite length_append in E.
  destruct p; [contradiction | simpl in E; lia].
Qed.

Lemma mem_byte_iff (c : ascii) (chars : string) :
  mem_byte c chars = true <-> occurs c chars.
Proof.
  unfold mem_byte. induction chars as [|a s IH]; simpl; [split; [discriminate | tauto]|].
  rewrite orb_true_iff, IH. destruct (Ascii.eqb_spec a c); intuition congruence.
Qed.

Lemma ContainsAny_dot_colon (s : string) :
  ContainsAny s ".:" = false <-> ~ occurs "." s /\ ~ occurs ":" s.
Proof.
  unfold ContainsAny. rewrite any_byte_false. split.
  - intros H. split; intros Hc; specialize (H _ Hc); discriminate.
  - intros [H1 H2] c Hc. destruct (mem_byte c ".:") eqn:E; [|reflexivity].
    apply mem_byte_iff in E. simpl in E.
    destruct E as [<-|[<-|[]]]; contradiction.
Qed.

(** The leading segment of a string is the slice before [IndexRune]. *)
Lemma leading_segment_index (s seg : string) :
  leading_segment s seg ->
  index_byte "/" s = Some (String.length seg)
  /\ slice_to s (String.length seg) = seg.
Proof.
  intros [Hno [rest ->]]. split.
  - now apply index_byte_app.
  - apply slice_to_app.
Qed.

Lemma index_leading_segment (s : string) (n : nat) :
  index_byte "/" s = Some n -> leading_segment s (slice_to s n).
Proof.
  intros H. destruct (index_byte_Some _ _ _ H) as [Hno Heq].
  split; [assumption | eexists; exact Heq].
Qed.

(** ** Canonical rendering and domain defaulting *)

(** C6. The canonical string of an [ImageInfo] is
    registry/path:tag when the digest is empty and registry/path@digest when
    it is not; with a digest present the rendering does not depend on the tag
    field at all. *)
Theorem String_canonical (i : ImageInfo) :
  (Digest i = "" ->
   String_ i = Registry i ++ "/" ++ Path i ++ ":" ++ Tag i)
  /\ (Digest i <> "" ->
      String_ i = Registry i ++ "/" ++ Path i ++ "@" ++ Digest i)
  /\ (Digest i <> "" ->
      forall t,
        String_ {| Registry := Registry i; Name := Name i; Path := Path i;
                   Tag := t; Digest := Digest i;
                   JSONPointer := JSONPointer i |} = String_ i).
Proof.
  unfold String_. destruct (String.eqb_spec (Digest i) "") as [E|E]; simpl.
  - repeat split; intros; solve [contradiction | reflexivity].
  - repeat split; intros; try solve [contradiction | reflexivity].
    destruct (String.eqb_spec (Digest i) ""); [contradiction | reflexivity].
Qed.

Section DefaultDomainProps.
Variable low : string -> string.

Lemma not_a_domain_bool (seg : string) :
  negb (ContainsAny seg ".:") && negb (seg =? "localhost")
  && (ToLower low seg =? seg) = true
  <-> not_a_domain low seg.
Proof.
  unfold not_a_domain.
  rewrite !andb_true_iff, !negb_true_iff, ContainsAny_dot_colon.
  destruct (String.eqb_spec seg "localhost");
    destruct (String.eqb_spec (ToLower low seg) seg); intuition congruence.
Qed.

Lemma addDefaultDomain_cases (s : string) :
  (gets_default_domain low s /\ addDefaultDomain low s = "docker.io/" ++ s)
  \/ (~ gets_default_domain low s /\ addDefaultDomain low s = s).
Proof.
  unfold addDefaultDomain, IndexRune.
  destruct (index_byte "/" s) as [n|] eqn:E.
  - replace (Z.of_nat n =? -1)%Z with false by (symmetry; apply Z.eqb_neq; lia).
    rewrite Nat2Z.id. simpl orb.
    pose proof (index_leading_segment _ _ E) as Hseg.
    destruct (negb (ContainsAny (slice_to s n) ".:")
              && negb (slice_to s n =? "localhost")
              && (ToLower low (slice_to s n) =? slice_to s n)) eqn:B.
    + left. split; [|reflexivity]. right. exists (slice_to s n).
      split; [assumption | now apply not_a_domain_bool].
    + right. split; [|reflexivity]. intros [Hno | [seg [Hl Hd]]].
      * apply Hno. destruct (index_byte_Some _ _ _ E) as [_ ->].
        apply occurs_app. right. now left.
      * destruct (leading_segment_index _ _ Hl) as [Hi Hs].
        rewrite E in Hi. injection Hi as ->. rewrite Hs in B.
        apply not_a_domain_bool in Hd. congruence.
  - left. split; [|reflexivity]. left. now apply index_byte_None.
Qed.

(** C5. [addDefaultDomain] returns "docker.io/" followed by its input
    exactly when the input has no '/' or the segment before its first '/'
    has neither '.' nor ':', is not "localhost" and is unchanged by
    lower-casing; otherwise it returns the input unchanged. *)
Theorem addDefaultDomain_spec (s : string) :
  (gets_default_domain low s <-> addDefaultDomain low s = "docker.io/" ++ s)
  /\ (~ gets_default_domain low s <-> addDefaultDomain low s = s).
Proof.
  assert (Hne : "docker.io/" ++ s <> s) by (apply append_neq_self; discriminate).
  destruct (addDefaultDomain_cases s) as [[HD HE]|[HD HE]];
    rewrite HE; split; split; intros; try tauto; try congruence.
Qed.

Lemma leading_segment_unique (s a b : string) :
  leading_segment s a -> leading_segment s b -> a = b.
Proof.
  intros Ha Hb.
  destruct (leading_segment_index _ _ Ha) as [Ia Sa].
  destruct (leading_segment_index _ _ Hb) as [Ib Sb].
  rewrite Ia in Ib. injection Ib as Ib. rewrite Ib in Sa. congruence.
Qed.

(** After defaulting, the leading segment looks like a domain. *)
Lemma addDefaultDomain_segment (s seg : string) :
  leading_segment (addDefaultDomain low s) seg -> ~ not_a_domain low seg.
Proof.
  destruct (addDefaultDomain_cases s) as [[HD ->]|[HD ->]]; intros Hl Hn.
  - assert (Hdocker : leading_segment ("docker.io/" ++ s) "docker.io").
    { split; [|exists s; reflexivity]. simpl.
      intros H; repeat destruct H as [H|H]; try discriminate; exact H. }
    rewrite (leading_segment_unique _ _ _ Hl Hdocker) in Hn.
    destruct Hn as [Hdot _]. apply Hdot. simpl. tauto.
  - apply HD. right. exists seg. tauto.
Qed.

(** A string whose leading segment looks like a domain is left alone. *)
Lemma addDefaultDomain_keeps (s seg : string) :
  leading_segment s seg -> ~ not_a_domain low seg ->
  addDefaultDomain low s = s.
Proof.
  intros Hl Hn. destruct (addDefaultDomain_cases s) as [[HD _]|[_ HE]];
    [|exact HE].
  exfalso. destruct HD as [Hno|[seg' [Hl' Hn']]].
  - destruct Hl as [_ [rest ->]]. apply Hno, occurs_app. right. now left.
  - rewrite (leading_segment_unique _ _ _ Hl' Hl) in Hn'. contradiction.
Qed.
End DefaultDomainProps.

(** ** The loop of convertToImageInfo *)

Section LoopProps.
Variable low : string -> string.
Variable Parse : string -> Reference + string.


(** Success and the error text of [newImageInfo] do not depend on the
    pointer, which is only stored. *)
Lemma newImageInfo_inr (image jp jp' msg : string) :
  newImageInfo low Parse image jp = inr msg -> newImageInfo low Parse image jp' = inr msg.
Proof.
  unfold newImageInfo.
  destruct (Parse (addDefaultDomain low image)) as [ref|err]; [|auto].
  destruct (named ref) as [[d p]|]; discriminate.
Qed.

Lemma newImageInfo_inl (image jp jp' : string) (i : ImageInfo) :
  newImageInfo low Parse image jp = inl i -> exists i', newImageInfo low Parse image jp' = inl i'.
Proof.
  intros H. destruct (newImageInfo low Parse image jp') as [i'|msg] eqn:E; [eauto|].
  apply (newImageInfo_inr _ _ jp) in E. congruence.
Qed.

Lemma newImageInfo_pointer (image jp : string) (i : ImageInfo) :
  newImageInfo low Parse image jp = inl i -> JSONPointer i = jp.
Proof.
  unfold newImageInfo.
  destruct (Parse (addDefaultDomain low image)) as [ref|err]; [|discriminate].
  destruct (named ref) as [[d p]|]; intros [= <-]; reflexivity.
Qed.

Lemma convert_loop_app (jp : string) (a b : list value) (st : loop_state) :
  convert_loop low Parse jp (a ++ b)%list st
  = (st' <- convert_loop low Parse jp a st ;; convert_loop low Parse jp b st').
Proof.
  revert st. induction a as [|x a IH]; intros st; simpl; [reflexivity|].
  destruct (convert_step low Parse jp st x) as [st1|]; simpl; [apply IH | reflexivity].
Qed.

(** What one iteration does, by the kind of element. *)
Lemma convert_step_classify (jp : string) (st : loop_state) (ctr : value) :
  convert_step low Parse jp st ctr =
  match classify ctr with
  | NotAMap =>
      Returns {| images := images st; errs := errs st;
                 index := (index st + 1)%Z |}
  | IllTyped => Panics
  | Container name image =>
      match newImageInfo low Parse image (Join [jp; Itoa (index st); "image"] "/") with
      | inr err =>
          Returns {| images := images st; errs := (errs st ++ [err])%list;
                     index := index st |}
      | inl imageInfo =>
          Returns {| images :=
                       (images st
                        ++ [{| ci_ImageInfo := imageInfo; ci_Name := name |}])%list;
                     errs := errs st;
                     index := (index st + 1)%Z |}
      end
  end.
Proof.
  destruct ctr as [| | | |l|m]; try reflexivity.
  unfold convert_step, classify.
  destruct (lookup "name" m) as [[| | |n| |]|]; try reflexivity.
  destruct (lookup "image" m) as [[| | |i| |]|]; reflexivity.
Qed.

(** The loop on a list without ill-typed elements: it returns, with one
    result per container whose image parses and one message per container
    whose image does not. *)
Lemma convert_loop_well_typed (jp : string) (cs : list value) :
  (forall ctr, In ctr cs -> classify ctr <> IllTyped) ->
  forall st, exists imgs idx,
    convert_loop low Parse jp cs st
    = Returns {| images := (images st ++ imgs)%list;
                 errs := (errs st ++ parse_errors low Parse (containers_of cs))%list;
                 index := idx |}
    /\ Forall2 (result_of low Parse) imgs
         (filter (parses low Parse) (containers_of cs)).
Proof.
  induction cs as [|ctr cs IH]; intros Hwt st.
  - exists [], (index st). simpl. rewrite !app_nil_r.
    split; [destruct st; reflexivity | constructor].
  - assert (Hcs : forall c, In c cs -> classify c <> IllTyped)
      by (intros c Hc; apply Hwt; now right).
    specialize (IH Hcs).
    assert (Hc := Hwt ctr (or_introl eq_refl)).
    cbn [convert_loop containers_of].
    rewrite convert_step_classify.
    destruct (classify ctr) as [|n i|]; [| |contradiction].
    + simpl bind. destruct (IH {| images := images st; errs := errs st;
                                  index := (index st + 1)%Z |})
        as (imgs & idx & -> & HF).
      exists imgs, idx. split; [reflexivity | assumption].
    + cbn [filter parse_errors flat_map]. unfold parses at 1. cbn [snd].
      destruct (newImageInfo low Parse i (Join [jp; Itoa (index st); "image"] "/"))
        as [info|msg] eqn:E.
      * destruct (newImageInfo_inl _ _ "" _ E) as [i0 E0]. rewrite E0.
        simpl bind.
        destruct (IH {| images := (images st ++ [{| ci_ImageInfo := info;
                                                   ci_Name := n |}])%list;
                        errs := errs st; index := (index st + 1)%Z |})
          as (imgs & idx & -> & HF).
        exists ({| ci_ImageInfo := info; ci_Name := n |} :: imgs), idx.
        cbn [images errs]. rewrite <- app_assoc. split; [reflexivity|].
        constructor; [|assumption]. split; [reflexivity|].
        eexists; exact E.
      * rewrite (newImageInfo_inr _ _ "" _ E). simpl bind.
        destruct (IH {| images := images st; errs := (errs st ++ [msg])%list;
                        index := index st |})
          as (imgs & idx & -> & HF).
        exists imgs, idx. cbn [images errs]. rewrite <- app_assoc.
        split; [reflexivity | assumption].
Qed.

Lemma parse_errors_nil (es : list (string * string)) :
  parse_errors low Parse es = [] <-> forall e, In e es -> parses low Parse e = true.
Proof.
  unfold parse_errors, parses. induction es as [|e es IH]; simpl.
  - split; [intros _ e [] | reflexivity].
  - destruct (newImageInfo low Parse (snd e) "") as [i|msg] eqn:E; simpl.
    + rewrite IH. split.
      * intros H e' [<-|He']; [now rewrite E | now apply H].
      * intros H e' He'. apply H. now right.
    + split; [discriminate|]. intros H.
      specialize (H e (or_introl eq_refl)). rewrite E in H. discriminate.
Qed.

(** C1. Extraction over a container list is best-effort: whenever no
    element is ill-typed the loop runs to the end of the list; the
    containers whose image parses are all returned, in order, next to an
    aggregate error that is nil exactly when no image failed to parse and
    otherwise is the messages of the failed containers joined by ";". *)
Theorem convertToImageInfo_best_effort (cs : list value) (jsonPath : string) :
  (forall ctr, In ctr cs -> classify ctr <> IllTyped) ->
  exists imgs err,
    convertToImageInfo low Parse cs jsonPath = Returns (imgs, err)
    /\ Forall2 (result_of low Parse) imgs
         (filter (parses low Parse) (containers_of cs))
    /\ (err = None <->
        forall e, In e (containers_of cs) -> parses low Parse e = true)
    /\ (err <> None ->
        err = Some (Join (parse_errors low Parse (containers_of cs)) ";")).
Proof.
  intros Hwt. unfold convertToImageInfo.
  destruct (convert_loop_well_typed jsonPath cs Hwt
              {| images := []; errs := []; index := 0 |})
    as (imgs & idx & -> & HF).
  cbn [bind images errs app].
  destruct (parse_errors low Parse (containers_of cs)) as [|m ms] eqn:E.
  - exists imgs, None. cbn. repeat split; try assumption; try congruence.
    intros _. now apply parse_errors_nil.
  - exists imgs, (Some (Join (m :: ms) ";")). cbn.
    repeat split; try assumption; try congruence.
    intros H. apply parse_errors_nil in H. congruence.
Qed.

(** The loop panics as soon as it meets an ill-typed element. *)
Lemma convert_loop_panics (jp : string) (cs : list value) (ctr : value) :
  In ctr cs -> classify ctr = IllTyped ->
  forall st, convert_loop low Parse jp cs st = Panics.
Proof.
  induction cs as [|c cs IH]; intros Hin Hc st; [contradiction|].
  cbn [convert_loop]. destruct Hin as [->|Hin].
  - rewrite convert_step_classify, Hc. reflexivity.
  - destruct (convert_step low Parse jp st c); simpl; [now apply IH | reflexivity].
Qed.

Lemma classify_bad_name (m : list (string * value)) :
  (forall s, lookup "name" m <> Some (VString s)) ->
  classify (VMap m) = IllTyped.
Proof.
  intros H. unfold classify.
  destruct (lookup "name" m) as [[| | |n| |]|]; try reflexivity.
  now contradiction (H n).
Qed.

Lemma extract_panics (i : imageExtractor) (tag : string)
  (resource : list (string * value)) (cs : list value) (ctr : value) :
  NestedSlice resource (fields i ++ [tag])%list = Some cs ->
  In ctr cs -> classify ctr = IllTyped ->
  extract low Parse i tag resource = Panics.
Proof.
  intros HN Hin Hc. unfold extract. rewrite HN.
  unfold extractImageInfos, convertToImageInfo.
  now rewrite (convert_loop_panics _ _ _ Hin Hc).
Qed.

(** C8. A container map whose "name" is absent or not a string aborts the
    extraction over its list: [convertToImageInfo] panics instead of
    recording an error and going on, and so does the extraction of the
    whole manifest when one of its three lists holds such an entry. *)
Theorem missing_name_panics (cs : list value) (m : list (string * value)) :
  In (VMap m) cs ->
  (forall s, lookup "name" m <> Some (VString s)) ->
  (forall jsonPath, convertToImageInfo low Parse cs jsonPath = Panics)
  /\ (forall resource tag,
        In tag ["initContainers"; "containers"; "ephemeralContainers"] ->
        NestedSlice resource
          (fields (extractors_at (GetKind resource)) ++ [tag])%list = Some cs ->
        extractImageInfo low Parse resource = Panics).
Proof.
  intros Hin Hname. pose proof (classify_bad_name m Hname) as Hc. split.
  - intros jp. unfold convertToImageInfo.
    now rewrite (convert_loop_panics _ _ _ Hin Hc).
  - intros resource tag Htag HN. unfold extractImageInfo.
    pose proof (fun t => extract_panics (extractors_at (GetKind resource)) t
                           resource cs (VMap m)) as P.
    destruct Htag as [<-|[<-|[<-|[]]]]; rewrite ?(P _ HN Hin Hc);
      repeat match goal with
             | |- context [bind ?e _] =>
                 lazymatch e with
                 | Panics => fail
                 | _ => destruct e; simpl bind
                 end
             end; try reflexivity; rewrite ?(P _ HN Hin Hc); reflexivity.
Qed.

(** The messages already collected only prefix those the loop adds. *)
Lemma convert_loop_frame (jp : string) (cs : list value)
  (i : list ContainerImage) (e : list string) (n : Z) :
  convert_loop low Parse jp cs {| images := i; errs := e; index := n |}
  = match convert_loop low Parse jp cs {| images := i; errs := []; index := n |} with
    | Returns st' =>
        Returns {| images := images st'; errs := (e ++ errs st')%list;
                   index := index st' |}
    | Panics => Panics
    end.
Proof.
  revert i e n. induction cs as [|ctr cs IH]; intros i e n.
  - simpl. now rewrite app_nil_r.
  - cbn [convert_loop]. rewrite !convert_step_classify. cbn [images errs index].
    destruct (classify ctr) as [|nm im|]; cbn [bind].
    + apply IH.
    + destruct (newImageInfo low Parse im (Join [jp; Itoa n; "image"] "/"))
        as [info|msg]; cbn [bind]; [apply IH|].
      rewrite (IH i (e ++ [msg])%list n), (IH i ([] ++ [msg])%list n).
      destruct (convert_loop low Parse jp cs
                  {| images := i; errs := []; index := n |}); [|reflexivity].
      cbn [images errs index]. now rewrite <- app_assoc.
    + reflexivity.
Qed.

(** A container whose image does not parse adds its message and nothing
    else: the images the loop returns, pointers included, are those it
    returns for the list without that container. *)
Lemma failed_entry (jp : string) (pre post : list value) (ctr : value)
  (name image msg : string) (st0 st' : loop_state) :
  classify ctr = Container name image ->
  (forall p, newImageInfo low Parse image p = inr msg) ->
  convert_loop low Parse jp (pre ++ ctr :: post)%list st0 = Returns st' ->
  exists before after,
    errs st' = (before ++ msg :: after)%list
    /\ convert_loop low Parse jp (pre ++ post)%list st0
       = Returns {| images := images st'; errs := (before ++ after)%list;
                    index := index st' |}.
Proof.
  intros Hc Hfail. rewrite !convert_loop_app.
  destruct (convert_loop low Parse jp pre st0) as [st1|]; [|discriminate].
  cbn [bind convert_loop]. rewrite convert_step_classify, Hc, Hfail.
  cbn [bind]. rewrite convert_loop_frame.
  destruct st1 as [i1 e1 n1]. cbn [images errs index].
  rewrite (convert_loop_frame jp post i1 e1 n1).
  destruct (convert_loop low Parse jp post
              {| images := i1; errs := []; index := n1 |}) as [st2|];
    [|discriminate].
  intros [= <-]. exists e1, (errs st2). cbn [images errs index].
  rewrite <- app_assoc. split; reflexivity.
Qed.

(** The counter after a list without ill-typed elements: one step per
    element, except for the containers whose image did not parse. *)
Lemma convert_loop_index (jp : string) (cs : list value) :
  (forall ctr, In ctr cs -> classify ctr <> IllTyped) ->
  forall st, exists st',
    convert_loop low Parse jp cs st = Returns st'
    /\ index st'
       = (index st + Z.of_nat (List.length cs)
          - Z.of_nat (List.length (parse_errors low Parse (containers_of cs))))%Z.
Proof.
  induction cs as [|ctr cs IH]; intros Hwt st.
  - exists st. split; [reflexivity | simpl; lia].
  - assert (Hcs : forall c, In c cs -> classify c <> IllTyped)
      by (intros c Hc; apply Hwt; now right).
    specialize (IH Hcs). assert (Hc := Hwt ctr (or_introl eq_refl)).
    cbn [convert_loop containers_of]. rewrite convert_step_classify.
    destruct (classify ctr) as [|n i|]; [| |contradiction]; cbn [bind].
    + destruct (IH {| images := images st; errs := errs st;
                      index := (index st + 1)%Z |}) as (st' & -> & Hi).
      exists st'. split; [reflexivity|]. rewrite Hi. cbn [index List.length].
      clear. lia.
    + change (parse_errors low Parse ((n, i) :: containers_of cs))
        with ((match newImageInfo low Parse i "" with
               | inl _ => []
               | inr msg => [msg]
               end) ++ parse_errors low Parse (containers_of cs))%list.
      rewrite length_app.
      destruct (newImageInfo low Parse i (Join [jp; Itoa (index st); "image"] "/"))
        as [info|msg] eqn:E; cbn [bind].
      * destruct (newImageInfo_inl _ _ "" _ E) as [i0 ->].
        destruct (IH {| images := (images st ++ [{| ci_ImageInfo := info;
                                                   ci_Name := n |}])%list;
                        errs := errs st; index := (index st + 1)%Z |})
          as (st' & -> & Hi).
        exists st'. split; [reflexivity|]. rewrite Hi.
        cbn [index List.length]. clear. lia.
      * rewrite (newImageInfo_inr _ _ "" _ E).
        destruct (IH {| images := images st; errs := (errs st ++ [msg])%list;
                        index := index st |}) as (st' & -> & Hi).
        exists st'. split; [reflexivity|]. rewrite Hi.
        cbn [index List.length]. clear. lia.
Qed.

(** X6. The pointer of a container whose image parses counts the elements
    before it, less those whose image failed to parse: it names the
    container's position only when none failed before it. *)
Lemma pointer_of_container (jp : string) (pre : list value) (ctr : value)
  (name image : string) :
  (forall c, In c pre -> classify c <> IllTyped) ->
  classify ctr = Container name image ->
  parses low Parse (name, image) = true ->
  exists before info err,
    convertToImageInfo low Parse (pre ++ [ctr])%list jp
    = Returns
        ((before ++ [{| ci_ImageInfo := info; ci_Name := name |}])%list, err)
    /\ Forall2 (result_of low Parse) before
         (filter (parses low Parse) (containers_of pre))
    /\ newImageInfo low Parse image (JSONPointer info) = inl info
    /\ JSONPointer info
       = Join [jp;
               Itoa (Z.of_nat (List.length pre)
                     - Z.of_nat (List.length
                                   (parse_errors low Parse (containers_of pre))));
               "image"] "/".
Proof.
  intros Hwt Hc Hp. unfold convertToImageInfo. rewrite convert_loop_app.
  destruct (convert_loop_well_typed jp pre Hwt
              {| images := []; errs := []; index := 0 |})
    as (imgs1 & idx & Hl & HF).
  destruct (convert_loop_index jp pre Hwt
              {| images := []; errs := []; index := 0 |}) as (st1 & Hl1 & Hi).
  rewrite Hl in Hl1. injection Hl1 as <-. rewrite Hl.
  cbn [bind convert_loop images errs index app] in *.
  rewrite convert_step_classify, Hc. cbn [images errs index].
  unfold parses in Hp. cbn [snd] in Hp.
  destruct (newImageInfo low Parse image (Join [jp; Itoa idx; "image"] "/"))
    as [info|msg] eqn:E.
  - pose proof (newImageInfo_pointer _ _ _ E) as Hptr.
    cbn [bind images errs].
    exists imgs1, info,
      (if (List.length (parse_errors low Parse (containers_of pre)) =? 0)%nat
       then None
       else Some (Join (parse_errors low Parse (containers_of pre)) ";")).
    split; [|split; [exact HF|split]].
    + destruct (List.length _ =? 0)%nat; reflexivity.
    + rewrite Hptr. exact E.
    + rewrite Hptr, Hi. reflexivity.
  - rewrite (newImageInfo_inr _ _ "" _ E) in Hp. discriminate.
Qed.
End LoopProps.

(** ** Patch building *)

Section MutateProps.
Variable Context_ : Type.
Variable ctx_ImageInfo : Context_ -> option Images.
Variable range : gomap -> gomap.
Variable jsonpatch_apply : string -> list string -> string + string.
Variable AddResource : Context_ -> string -> Context_ * option string.

(** [range] visits every entry of a map once. *)
Hypothesis range_visits : forall m, Permutation (range m) m.

Lemma append_patches_eq (patches : list string) (m : gomap) :
  append_patches range patches m
  = (patches ++ map patch_of (map snd (range m)))%list.
Proof.
  unfold append_patches. generalize (range m) as l. intros l.
  revert patches. induction l as [|kv l IH]; intros patches; simpl.
  - now rewrite app_nil_r.
  - rewrite IH, <- app_assoc. reflexivity.
Qed.

Lemma image_patches_eq (images : Images) :
  image_patches range images
  = map patch_of
      (map snd (range (Containers images) ++ range (InitContainers images)
                ++ range (EphemeralContainers images))%list).
Proof.
  unfold image_patches. rewrite !append_patches_eq. simpl.
  now rewrite !map_app, app_assoc.
Qed.



End MutateProps.

(** ** The default tag *)

(** C7. When the parsed reference carries neither a tag nor a digest the
    resulting [ImageInfo] has the tag "latest"; "busybox" parses to
    registry docker.io, path and name busybox, tag latest and no digest. *)
Theorem default_tag_latest (low : string -> string) :
  (forall (Parse : string -> Reference + string) image jsonPointer ref,
      Parse (addDefaultDomain low image) = inl ref ->
      tagged ref = None -> digested ref = None ->
      exists info,
        newImageInfo low Parse image jsonPointer = inl info
        /\ Tag info = "latest" /\ Digest info = "")
  /\ (forall jsonPointer,
        image_of low "busybox" jsonPointer = inl (busybox_latest jsonPointer)).
Proof.
  split.
  - intros Parse image jp ref HP Ht Hd. unfold newImageInfo.
    rewrite HP, Ht, Hd. destruct (named ref) as [[d p]|]; eexists;
      (split; [reflexivity | split; reflexivity]).
  - intros jp. reflexivity.
Qed.

(** ** The reference grammar *)

Import reference.

Lemma app_cons_assoc (a b s : string) (c : ascii) :
  (a ++ String c b) ++ s = a ++ String c (b ++ s).
Proof. now rewrite append_assoc. Qed.

Lemma split_first_Some (c : ascii) (s a b : string) :
  split_first c s = (a, Some b) -> s = a ++ String c b /\ ~ occurs c a.
Proof.
  revert a. induction s as [|x s IH]; simpl; intros a; [discriminate|].
  destruct (Ascii.eqb_spec x c) as [->|Hne].
  - intros [= <- <-]. simpl. tauto.
  - destruct (split_first c s) as [pre post]. intros [= <- ->].
    destruct (IH pre eq_refl) as [-> Hno]. simpl. split; [reflexivity | tauto].
Qed.

Lemma split_first_app (c : ascii) (a b : string) :
  ~ occurs c a -> split_first c (a ++ String c b) = (a, Some b).
Proof.
  induction a as [|x a IH]; simpl; intros H.
  - now rewrite Ascii.eqb_refl.
  - destruct (Ascii.eqb_spec x c) as [->|Hne]; [exfalso; apply H; now left|].
    rewrite IH; [reflexivity | tauto].
Qed.

Lemma split_first_absent (c : ascii) (s : string) :
  ~ occurs c s -> split_first c s = (s, None).
Proof.
  induction s as [|x s IH]; simpl; intros H; [reflexivity|].
  destruct (Ascii.eqb_spec x c) as [->|Hne]; [exfalso; apply H; now left|].
  rewrite IH; [reflexivity | tauto].
Qed.

Lemma split_last_Some (c : ascii) (s a b : string) :
  split_last c s = (a, Some b) -> s = a ++ String c b.
Proof.
  revert a. induction s as [|x s IH]; simpl; intros a; [discriminate|].
  destruct (split_last c s) as [pre [post|]].
  - intros [= <- <-]. now rewrite (IH pre eq_refl).
  - destruct (Ascii.eqb_spec x c) as [->|Hne]; [|discriminate].
    intros [= <- <-]. reflexivity.
Qed.

Lemma split_last_absent (c : ascii) (s : string) :
  ~ occurs c s -> split_last c s = (s, None).
Proof.
  induction s as [|x s IH]; simpl; intros H; [reflexivity|].
  rewrite IH by tauto.
  destruct (Ascii.eqb_spec x c) as [->|Hne]; [exfalso; apply H; now left|].
  reflexivity.
Qed.

Lemma split_last_app (c : ascii) (a b : string) :
  ~ occurs c b -> split_last c (a ++ String c b) = (a, Some b).
Proof.
  intros H. induction a as [|x a IH]; simpl.
  - now rewrite split_last_absent, Ascii.eqb_refl.
  - now rewrite IH.
Qed.

(** Appending a string without [c] does not move the last [c]. *)
Lemma split_last_suffix (c : ascii) (a b : string) :
  ~ occurs c b ->
  split_last c (a ++ b)
  = match split_last c a with
    | (pre, Some post) => (pre, Some (post ++ b))
    | (_, None) => (a ++ b, None)
    end.
Proof.
  intros H. induction a as [|x a IH]; simpl.
  - now rewrite split_last_absent.
  - rewrite IH. destruct (split_last c a) as [pre [post|]]; [reflexivity|].
    destruct (x =? c)%char; reflexivity.
Qed.

(** The bytes an automaton reads all belong to the class its transitions
    accept. *)
Lemma run_bytes {Q : Type} (step : Q -> ascii -> option Q) (cls : ascii -> bool) :
  (forall q c q', step q c = Some q' -> cls c = true) ->
  forall s q q', run step q s = Some q' -> all_bytes cls s = true.
Proof.
  intros Hstep. induction s as [|c s IH]; simpl; intros q q' H; [reflexivity|].
  destruct (step q c) as [q1|] eqn:E; [|discriminate].
  rewrite (Hstep _ _ _ E). simpl. eapply IH; eassumption.
Qed.

Ltac step_cases :=
  repeat match goal with
         | |- context [if ?b then _ else _] => destruct b eqn:?
         end;
  intros; try discriminate; rewrite ?orb_true_r; reflexivity.

Lemma domain_step_byte (q : domain_state) (c : ascii) (q' : domain_state) :
  domain_step q c = Some q' -> domain_byte c = true.
Proof.
  unfold domain_byte.
  destruct q; simpl; try solve [step_cases].
  all: destruct (is_digit c) eqn:E; [|discriminate]; intros _;
    unfold alnum; rewrite E, ?orb_true_r; reflexivity.
Qed.

Lemma path_step_byte (q : path_state) (c : ascii) (q' : path_state) :
  path_step q c = Some q' -> path_byte c = true.
Proof. unfold path_byte. destruct q; simpl; step_cases. Qed.

Lemma match_domain_bytes (d : string) :
  match_domain d = true -> all_bytes domain_byte d = true.
Proof.
  unfold match_domain. destruct (run domain_step DStart d) as [q|] eqn:E;
    [|discriminate].
  intros _. exact (run_bytes _ _ domain_step_byte _ _ _ E).
Qed.

Lemma match_path_bytes (p : string) :
  match_path p = true -> all_bytes path_byte p = true.
Proof.
  unfold match_path. destruct (run path_step PStart p) as [q|] eqn:E;
    [|discriminate].
  intros _. exact (run_bytes _ _ path_step_byte _ _ _ E).
Qed.

Lemma match_tag_bytes (t : string) :
  match_tag t = true -> all_bytes tag_byte t = true.
Proof.
  destruct t as [|c t]; simpl; [discriminate|]. intros H.
  apply andb_true_iff in H as [H _]. apply andb_true_iff in H as [Hc Ht].
  unfold tag_byte at 1. rewrite Hc. exact Ht.
Qed.

(** A byte outside a class does not occur in a string of that class. *)
Lemma class_excludes (cls : ascii -> bool) (s : string) (c : ascii) :
  all_bytes cls s = true -> cls c = false -> ~ occurs c s.
Proof.
  intros H Hc Ho. rewrite all_bytes_true in H. specialize (H c Ho). congruence.
Qed.

Lemma match_path_nonempty (p : string) : match_path p = true -> p <> "".
Proof. intros H ->. discriminate. Qed.

Lemma match_domain_nonempty (d : string) : match_domain d = true -> d <> "".
Proof. intros H ->. discriminate. Qed.

Lemma match_tag_nonempty (t : string) : match_tag t = true -> t <> "".
Proof. intros H ->. discriminate. Qed.

Lemma match_digest_nonempty (g : string) : match_digest g = true -> g <> "".
Proof. intros H ->. discriminate. Qed.

(** The groups of a name. *)
Lemma anchoredNameRegexp_Some (n d p : string) :
  anchoredNameRegexp n = Some (d, p) ->
  match_path p = true
  /\ (d <> "" ->
      n = d ++ String "/" p /\ match_domain d = true /\ ~ occurs "/" d).
Proof.
  unfold anchoredNameRegexp.
  destruct (split_first "/" n) as [a [b|]] eqn:E.
  - destruct (match_domain a && match_path b) eqn:B.
    + intros [= <- <-]. apply andb_true_iff in B. destruct B as [Ba Bb].
      destruct (split_first_Some _ _ _ _ E) as [-> Hno]. tauto.
    + destruct (match_path n) eqn:Bn; [|discriminate].
      intros [= <- <-]. split; [assumption | congruence].
  - destruct (match_path n) eqn:Bn; [|discriminate].
    intros [= <- <-]. split; [assumption | congruence].
Qed.

Lemma anchoredNameRegexp_domain_path (d p : string) :
  match_domain d = true -> match_path p = true ->
  anchoredNameRegexp (d ++ String "/" p) = Some (d, p).
Proof.
  intros Hd Hp. unfold anchoredNameRegexp.
  rewrite split_first_app, Hd, Hp; [reflexivity|].
  apply (class_excludes _ _ _ (match_domain_bytes _ Hd)). reflexivity.
Qed.

(** What the reference expression matches is a prefix of the string, and
    the groups that took part satisfy their own expressions. *)
Lemma ReferenceRegexp_Some (s n t g : string) :
  ReferenceRegexp s = Some (n, t, g) ->
  (exists rest, s = n ++ rest)
  /\ anchoredNameRegexp n <> None
  /\ (t <> "" -> match_tag t = true)
  /\ (g <> "" -> match_digest g = true).
Proof.
  unfold ReferenceRegexp.
  destruct (split_first "@" s) as [body dg] eqn:Es.
  assert (Hbody : exists r, s = body ++ r).
  { destruct dg as [dg|].
    - destruct (split_first_Some _ _ _ _ Es) as [-> _]. eauto.
    - exists "". rewrite append_nil_r. revert Es. clear.
      revert body. induction s as [|x s IH]; simpl; intros body.
      + now intros [= <-].
      + destruct (x =? "@")%char; [discriminate|].
        destruct (split_first "@" s) as [pre post]. intros [= <- ->].
        now rewrite <- (IH pre eq_refl). }
  destruct Hbody as [r ->].
  set (nt := match split_last ":" body with
             | (pre, Some post) =>
                 if any_byte (fun a => (a =? "/")%char) post then (body, None)
                 else (pre, Some post)
             | (_, None) => (body, None)
             end).
  assert (Hname : exists r', body = fst nt ++ r').
  { subst nt. destruct (split_last ":" body) as [pre [post|]] eqn:El.
    - destruct (any_byte _ post); simpl.
      + exists "". now rewrite append_nil_r.
      + rewrite (split_last_Some _ _ _ _ El). eauto.
    - exists "". now rewrite append_nil_r. }
  destruct nt as [name tg]. simpl in Hname. destruct Hname as [r' ->].
  destruct (anchoredNameRegexp name) as [dp|] eqn:Ea; [|discriminate].
  assert (Hpre : exists rest, (name ++ r') ++ r = name ++ rest)
    by (rewrite append_assoc; eauto).
  destruct tg as [tg|], dg as [dg|].
  - destruct (match_tag tg) eqn:Bt; [|discriminate].
    destruct (match_digest dg) eqn:Bd; [|discriminate].
    intros [= <- <- <-]. repeat split; auto; congruence.
  - destruct (match_tag tg) eqn:Bt; [|discriminate].
    intros [= <- <- <-]. repeat split; auto; congruence.
  - destruct (match_digest dg) eqn:Bd; [|discriminate].
    intros [= <- <- <-]. repeat split; auto; congruence.
  - intros [= <- <- <-]. repeat split; auto; congruence.
Qed.

Section Completeness.
Variables d p : string.
Hypothesis Hd : match_domain d = true.
Hypothesis Hp : match_path p = true.

Lemma name_no_at : ~ occurs "@" (d ++ String "/" p).
Proof.
  rewrite occurs_app. simpl. intros [H|[H|H]]; [|discriminate|].
  - revert H. apply (class_excludes _ _ _ (match_domain_bytes _ Hd)). reflexivity.
  - revert H. apply (class_excludes _ _ _ (match_path_bytes _ Hp)). reflexivity.
Qed.

(** domain/path:tag is matched with these three groups. *)
Lemma ReferenceRegexp_tagged (t : string) :
  match_tag t = true ->
  ReferenceRegexp (d ++ String "/" (p ++ String ":" t))
  = Some (d ++ String "/" p, t, "").
Proof.
  intros Ht. pose proof (match_tag_bytes _ Ht) as Hb.
  unfold ReferenceRegexp. rewrite <- app_cons_assoc.
  rewrite split_first_absent.
  2:{ rewrite occurs_app. simpl. intros [H|[H|H]]; [|discriminate|].
      - now apply name_no_at.
      - revert H. apply (class_excludes _ _ _ Hb). reflexivity. }
  rewrite split_last_app
    by (apply (class_excludes _ _ _ Hb); reflexivity).
  replace (any_byte (fun a => (a =? "/")%char) t) with false.
  2:{ symmetry. apply not_occurs_any.
      apply (class_excludes _ _ _ Hb). reflexivity. }
  now rewrite anchoredNameRegexp_domain_path, Ht.
Qed.

(** domain/path@digest is matched without a tag. *)
Lemma ReferenceRegexp_digested (g : string) :
  match_digest g = true ->
  ReferenceRegexp (d ++ String "/" (p ++ String "@" g))
  = Some (d ++ String "/" p, "", g).
Proof.
  intros Hg. unfold ReferenceRegexp. rewrite <- app_cons_assoc.
  rewrite split_first_app by apply name_no_at.
  assert (Hcolon : ~ occurs ":" (String "/" p)).
  { simpl. intros [H|H]; [discriminate|]. revert H.
    apply (class_excludes _ _ _ (match_path_bytes _ Hp)). reflexivity. }
  rewrite (split_last_suffix ":" d (String "/" p) Hcolon).
  destruct (split_last ":" d) as [pre [post|]].
  - replace (any_byte (fun a => (a =? "/")%char) (post ++ String "/" p))
      with true.
    2:{ symmetry. clear. induction post as [|x post IH]; simpl;
          [reflexivity | rewrite IH; apply orb_true_r]. }
    now rewrite anchoredNameRegexp_domain_path, Hg.
  - now rewrite anchoredNameRegexp_domain_path, Hg.
Qed.
End Completeness.

(** ** Parsing, rendering and parsing again *)

Section RoundTrip.
Variable low : string -> string.

Lemma getBestReferenceType_named (d p t g : string) :
  p <> "" ->
  getBestReferenceType d p t g
  = Some {| named := Some (d, p);
            tagged := if t =? "" then None else Some t;
            digested := if g =? "" then None else Some g |}.
Proof.
  intros Hp. unfold getBestReferenceType.
  destruct (String.eqb_spec p ""); [contradiction|]. rewrite andb_false_r.
  destruct (t =? ""), (g =? ""); reflexivity.
Qed.

(** The fields of a parsed image, from the groups of the expressions. *)
Lemma image_of_groups (R jp n t g d p : string) :
  ReferenceRegexp (addDefaultDomain low R) = Some (n, t, g) ->
  anchoredNameRegexp n = Some (d, p) ->
  (NameTotalLengthMax <? String.length n)%nat = false ->
  (if negb (g =? "") then digest_Validate g else None) = None ->
  image_of low R jp
  = inl {| Registry := d; Name := short_name p; Path := p;
           Tag := if (g =? "") && (t =? "") then "latest" else t;
           Digest := g; JSONPointer := jp |}.
Proof.
  intros HR Ha Hlen Hv. unfold image_of, newImageInfo, Parse.
  rewrite HR, Hlen, Ha, Hv.
  destruct (anchoredNameRegexp_Some _ _ _ Ha) as [Hp _].
  rewrite (getBestReferenceType_named _ _ _ _ (match_path_nonempty _ Hp)).
  cbn [named tagged digested].
  destruct (String.eqb_spec t "") as [->|Ht];
    destruct (String.eqb_spec g "") as [->|Hg]; simpl;
    rewrite ?(proj2 (String.eqb_neq _ _) Ht), ?(proj2 (String.eqb_neq _ _) Hg);
    reflexivity.
Qed.

Lemma image_of_inl (R jp : string) (info : ImageInfo) :
  image_of low R jp = inl info ->
  exists n t g d p,
    ReferenceRegexp (addDefaultDomain low R) = Some (n, t, g)
    /\ anchoredNameRegexp n = Some (d, p)
    /\ (NameTotalLengthMax <? String.length n)%nat = false
    /\ (if negb (g =? "") then digest_Validate g else None) = None
    /\ info = {| Registry := d; Name := short_name p; Path := p;
                 Tag := if (g =? "") && (t =? "") then "latest" else t;
                 Digest := g; JSONPointer := jp |}.
Proof.
  intros H. pose proof H as H0. unfold image_of, newImageInfo, Parse in H.
  destruct (ReferenceRegexp (addDefaultDomain low R)) as [[[n t] g]|] eqn:HR.
  2:{ destruct (addDefaultDomain low R =? "");
        [|destruct (ReferenceRegexp (ToLower low (addDefaultDomain low R)))];
        discriminate. }
  destruct (NameTotalLengthMax <? String.length n)%nat eqn:Hlen; [discriminate|].
  destruct (ReferenceRegexp_Some _ _ _ _ HR) as (_ & Hname & _ & _).
  destruct (anchoredNameRegexp n) as [[d p]|] eqn:Ha; [|contradiction].
  destruct (if negb (g =? "") then digest_Validate g else None) eqn:Hv;
    [discriminate|].
  exists n, t, g, d, p. repeat split; try assumption.
  rewrite (image_of_groups R jp n t g d p HR Ha Hlen Hv) in H0. congruence.
Qed.

Lemma match_tag_latest : match_tag "latest" = true.
Proof. reflexivity. Qed.

(** C4 (amended). When an image string parses to a non-empty registry, the
    canonical string of the result parses again, to the same registry,
    path, name and digest; the tag is the same when there is no digest,
    and is empty when there is one, which drops the tag of a reference
    that had both. *)
Theorem canonical_reparse (R jsonPointer : string) (info : ImageInfo) :
  image_of low R jsonPointer = inl info ->
  Registry info <> "" ->
  exists info',
    image_of low (String_ info) jsonPointer = inl info'
    /\ Registry info' = Registry info
    /\ Path info' = Path info
    /\ Name info' = Name info
    /\ Digest info' = Digest info
    /\ Tag info' = (if Digest info =? "" then Tag info else "").
Proof.
  intros H Hreg.
  destruct (image_of_inl _ _ _ H) as (n & t & g & d & p & HR & Ha & Hlen & Hv & ->).
  cbn [Registry Path Name Tag Digest] in *.
  destruct (anchoredNameRegexp_Some _ _ _ Ha) as [Hp Hd].
  destruct (Hd Hreg) as (Hn & Hdom & Hslash). clear Hd.
  destruct (ReferenceRegexp_Some _ _ _ _ HR) as ([rest Hpre] & _ & Ht & Hg).
  (* the leading segment of the defaulted input is the domain *)
  assert (Hseg : ~ not_a_domain low d).
  { apply (addDefaultDomain_segment low R). split; [assumption|].
    exists (p ++ rest). rewrite Hpre, Hn. apply app_cons_assoc. }
  assert (Hkeep : forall tail,
             addDefaultDomain low (d ++ String "/" (p ++ tail))
             = d ++ String "/" (p ++ tail)).
  { intros tail. apply (addDefaultDomain_keeps low _ d); [|assumption].
    split; [assumption | eauto]. }
  unfold String_. cbn [Registry Path Name Tag Digest].
  destruct (String.eqb_spec g "") as [->|Hgne]; cbn [negb andb].
  - (* no digest: registry/path:tag *)
    set (tag := if t =? "" then "latest" else t).
    assert (Htag : match_tag tag = true).
    { subst tag. destruct (String.eqb_spec t ""); [reflexivity | auto]. }
    eexists. split.
    + apply (image_of_groups _ _ n tag "" d p); try assumption.
      change (d ++ "/" ++ p ++ ":" ++ tag)
        with (d ++ String "/" (p ++ String ":" tag)).
      rewrite Hkeep, Hn. now apply ReferenceRegexp_tagged.
    + cbn. destruct (String.eqb_spec tag "") as [E|_]; [|repeat split].
      exfalso. now apply (match_tag_nonempty _ Htag).
  - (* a digest: registry/path@digest *)
    eexists. split.
    + apply (image_of_groups _ _ n "" g d p); try assumption;
        [|rewrite (proj2 (String.eqb_neq g "") Hgne); exact Hv].
      change (d ++ "/" ++ p ++ "@" ++ g)
        with (d ++ String "/" (p ++ String "@" g)).
      rewrite Hkeep, Hn. apply ReferenceRegexp_digested; auto.
    + cbn. destruct (String.eqb_spec g ""); [contradiction|]. repeat split.
Qed.
End RoundTrip.

(** ** ASCII inputs

    On an all-ASCII image string the program never takes the Unicode path of
    [strings.ToLower]: its result is the same whatever that path computes. *)

Lemma all_bytes_slice_to (p : ascii -> bool) (s : string) (n : nat) :
  all_bytes p s = true -> all_bytes p (slice_to s n) = true.
Proof.
  revert s. induction n as [|n IH]; intros [|c s]; simpl; try reflexivity.
  rewrite !andb_true_iff. intros [Hc Hs]. split; [assumption | now apply IH].
Qed.

Lemma all_bytes_app (p : ascii -> bool) (a b : string) :
  all_bytes p (a ++ b) = all_bytes p a && all_bytes p b.
Proof.
  induction a as [|c a IH]; simpl; [reflexivity | now rewrite IH, andb_assoc].
Qed.

Lemma ToLower_ascii (low low' : string -> string) (s : string) :
  all_bytes below_RuneSelf s = true -> ToLower low s = ToLower low' s.
Proof. intros H. unfold ToLower. now rewrite H. Qed.

Lemma addDefaultDomain_ascii (low low' : string -> string) (s : string) :
  all_bytes below_RuneSelf s = true ->
  addDefaultDomain low s = addDefaultDomain low' s
  /\ all_bytes below_RuneSelf (addDefaultDomain low s) = true.
Proof.
  intros H. unfold addDefaultDomain.
  rewrite (ToLower_ascii low low' _ (all_bytes_slice_to _ _ _ H)).
  split; [reflexivity|].
  match goal with |- context [if ?b then _ else _] => destruct b end;
    [rewrite all_bytes_app, H; reflexivity | exact H].
Qed.

Lemma Parse_ascii (low low' : string -> string) (s : string) :
  all_bytes below_RuneSelf s = true -> Parse low s = Parse low' s.
Proof. intros H. unfold Parse. now rewrite (ToLower_ascii low low' s H). Qed.

Lemma image_of_ascii (low low' : string -> string) (image jp : string) :
  all_bytes below_RuneSelf image = true ->
  image_of low image jp = image_of low' image jp.
Proof.
  intros H. unfold image_of, newImageInfo.
  destruct (addDefaultDomain_ascii low low' image H) as [E A].
  rewrite <- E, (Parse_ascii low low' _ A). reflexivity.
Qed.

(** ** A container without image *)

Lemma no_image_fails (low : string -> string) (jp : string) :
  image_of low "" jp = inr ErrNoImage.
Proof. reflexivity. Qed.

(** C10. A container map with a string "name" and no "image" never yields
    an image: its image string is the empty string, which
    [addDefaultDomain] turns into "docker.io/"; that string does not parse,
    so the container only adds its message to the aggregate error, and the
    images returned are those of the list without it. *)
Theorem missing_image_is_parse_error (low : string -> string)
  (pre post : list value) (m : list (string * value)) (name jsonPath : string)
  (imgs : list ContainerImage) (err : option string) :
  lookup "name" m = Some (VString name) ->
  lookup "image" m = None ->
  convertToImageInfo low (Parse low) (pre ++ VMap m :: post)%list jsonPath
  = Returns (imgs, err) ->
  classify (VMap m) = Container name ""
  /\ addDefaultDomain low "" = "docker.io/"
  /\ (forall p, newImageInfo low (Parse low) "" p = inr ErrNoImage)
  /\ (exists before after,
         err = Some (Join (before ++ ErrNoImage :: after)%list ";"))
  /\ (exists err0,
         convertToImageInfo low (Parse low) (pre ++ post)%list jsonPath
         = Returns (imgs, err0)).
Proof.
  intros Hname Himage H.
  assert (Hc : classify (VMap m) = Container name "")
    by (unfold classify; now rewrite Hname, Himage).
  split; [exact Hc|]. split; [reflexivity|].
  split; [exact (no_image_fails low)|].
  unfold convertToImageInfo in *.
  destruct (convert_loop low (Parse low) jsonPath (pre ++ VMap m :: post)%list
              {| images := []; errs := []; index := 0 |}) as [st'|] eqn:E;
    [|discriminate].
  destruct (failed_entry low (Parse low) jsonPath pre post (VMap m) name ""
              ErrNoImage _ _ Hc (no_image_fails low) E)
    as (before & after & Herrs & ->).
  cbn [bind images errs] in *. rewrite Herrs in H.
  destruct before; cbn in H; injection H as <- <-.
  - split; [exists [], after; reflexivity|].
    destruct (List.length ([] ++ after) =? 0)%nat; eauto.
  - split; [exists (s :: before), after; reflexivity|].
    destruct (List.length ((s :: before) ++ after) =? 0)%nat; eauto.
Qed.

(** ** The program on concrete manifests *)

(** Section 8 of the spec: the first container of a Deployment. *)
Example deployment_pointer :
  extractImageInfo ascii_only (Parse ascii_only) deployment_nginx
  = Returns
      ([],
       [{| ci_ImageInfo :=
             {| Registry := "docker.io"; Name := "nginx"; Path := "nginx";
                Tag := "1.25"; Digest := "";
                JSONPointer := "/spec/template/spec/containers/0/image" |};
           ci_Name := "web" |}],
       []).
Proof. vm_compute. reflexivity. Qed.

(** C3. The pointer of a container is built from the loop's own counter,
    which the error branch does not advance: in a Pod whose first container
    fails to parse, the second container, at position 1 of the list, gets the
    pointer /spec/containers/0/image. *)
Theorem pointer_after_failed_entry :
  NestedSlice pod_with_bad_first ["spec"; "containers"] = Some bad_first_containers
  /\ nth_error bad_first_containers 1
     = Some (VMap [("name", VString "second"); ("image", VString "busybox")])
  /\ extractImageInfo ascii_only (Parse ascii_only) pod_with_bad_first
     = Returns
         ([],
          [{| ci_ImageInfo := busybox_latest "/spec/containers/0/image";
              ci_Name := "second" |}],
          []).
Proof. repeat split; vm_compute; reflexivity. Qed.

(** C2. For a kind without extractor the zero extractor is used, whose
    empty prefix makes the three lists be looked up at the top level of the
    manifest: a ConfigMap with a top-level "containers" list yields an
    image. *)
Theorem unknown_kind_reads_top_level :
  lookup (GetKind configmap_with_containers) extractors = None
  /\ extractImageInfo ascii_only (Parse ascii_only) configmap_with_containers
     = Returns
         ([],
          [{| ci_ImageInfo := busybox_latest "/containers/0/image";
              ci_Name := "a" |}],
          []).
Proof. split; vm_compute; reflexivity. Qed.

(** Without such top-level lists a manifest of unknown kind yields nothing. *)
Lemma unknown_kind_without_lists (low : string -> string)
  (P : string -> Reference + string) (resource : list (string * value)) :
  lookup (GetKind resource) extractors = None ->
  (forall tag, NestedSlice resource [tag] = None) ->
  extractImageInfo low P resource = Returns ([], [], []).
Proof.
  intros Hk Hno. unfold extractImageInfo, extractors_at, extract.
  rewrite Hk. cbn [fields app]. now rewrite !Hno.
Qed.

(** C4, as stated, fails: a reference with a tag and a digest comes back
    without its tag, and one whose leading segment is not a domain but
    holds a '.' parses to an empty registry, whose canonical string does not
    parse. *)
Lemma round_trip_fails :
  ~ round_trip ascii_only ("busybox:v1@" ++ sha256_a)
  /\ ~ round_trip ascii_only "a_b.c/d".
Proof.
  split; intros H.
  - assert (E : image_of ascii_only ("busybox:v1@" ++ sha256_a) "/p"
                = inl {| Registry := "docker.io"; Name := "busybox";
                         Path := "busybox"; Tag := "v1"; Digest := sha256_a;
                         JSONPointer := "/p" |}) by (vm_compute; reflexivity).
    destruct (H _ _ E) as (info' & Hp & _ & _ & _ & Ht & _).
    vm_compute in Hp. injection Hp as <-. discriminate.
  - assert (E : image_of ascii_only "a_b.c/d" "/p"
                = inl {| Registry := ""; Name := "d"; Path := "a_b.c/d";
                         Tag := "latest"; Digest := "";
                         JSONPointer := "/p" |}) by (vm_compute; reflexivity).
    destruct (H _ _ E) as (info' & Hp & _).
    vm_compute in Hp. discriminate.
Qed.

(** ** Instances *)

Lemma convertToImageInfo_best_effort_witness :
  exists imgs err,
    convertToImageInfo ascii_only (Parse ascii_only) bad_first_containers
      "/spec/containers" = Returns (imgs, err)
    /\ Forall2 (result_of ascii_only (Parse ascii_only)) imgs
         (filter (parses ascii_only (Parse ascii_only))
            (containers_of bad_first_containers))
    /\ (err = None <->
        forall e, In e (containers_of bad_first_containers) ->
                  parses ascii_only (Parse ascii_only) e = true)
    /\ (err <> None ->
        err = Some (Join (parse_errors ascii_only (Parse ascii_only)
                            (containers_of bad_first_containers)) ";")).
Proof.
  apply convertToImageInfo_best_effort.
  intros ctr [<-|[<-|[]]]; discriminate.
Defined.

Lemma missing_name_panics_witness :
  convertToImageInfo ascii_only (Parse ascii_only)
    [VMap container_without_name] "/spec/containers" = Panics.
Proof.
  apply (missing_name_panics ascii_only (Parse ascii_only)
           [VMap container_without_name] container_without_name).
  - left. reflexivity.
  - intros s. discriminate.
Defined.

Lemma canonical_reparse_witness :
  exists info',
    image_of ascii_only (String_ (busybox_latest "/p")) "/p" = inl info'
    /\ Registry info' = "docker.io"
    /\ Path info' = "busybox"
    /\ Name info' = "busybox"
    /\ Digest info' = ""
    /\ Tag info' = "latest".
Proof.
  apply (canonical_reparse ascii_only "busybox" "/p" (busybox_latest "/p")).
  - reflexivity.
  - discriminate.
Defined.

Lemma addDefaultDomain_spec_witness :
  gets_default_domain ascii_only "busybox"
  /\ addDefaultDomain ascii_only "busybox" = "docker.io/busybox".
Proof.
  assert (H : gets_default_domain ascii_only "busybox").
  { left. simpl. intros H. repeat destruct H as [H|H]; try discriminate; exact H. }
  split; [exact H|].
  exact (proj1 (proj1 (addDefaultDomain_spec ascii_only "busybox")) H).
Defined.

Lemma String_canonical_witness :
  Digest (busybox_latest "/p") = ""
  /\ String_ (busybox_latest "/p") = "docker.io/busybox:latest".
Proof.
  split; [reflexivity|].
  exact (proj1 (String_canonical (busybox_latest "/p")) eq_refl).
Defined.

Lemma default_tag_latest_witness :
  exists info,
    newImageInfo ascii_only (Parse ascii_only) "busybox" "/p" = inl info
    /\ Tag info = "latest" /\ Digest info = "".
Proof.
  apply (proj1 (default_tag_latest ascii_only) (Parse ascii_only) "busybox" "/p"
           {| named := Some ("docker.io", "busybox"); tagged := None;
              digested := None |}); reflexivity.
Defined.



Lemma missing_image_is_parse_error_witness :
  classify (VMap container_without_image) = Container "sidecar" ""
  /\ addDefaultDomain ascii_only "" = "docker.io/"
  /\ (forall p, newImageInfo ascii_only (Parse ascii_only) "" p = inr ErrNoImage)
  /\ (exists before after,
         Some ErrNoImage = Some (Join (before ++ ErrNoImage :: after)%list ";"))
  /\ (exists err0,
         convertToImageInfo ascii_only (Parse ascii_only)
           ([] ++ [VMap [("name", VString "second");
                         ("image", VString "busybox")]])%list
           "/spec/containers"
         = Returns
             ([{| ci_ImageInfo := busybox_latest "/spec/containers/0/image";
                  ci_Name := "second" |}], err0)).
Proof.
  apply (missing_image_is_parse_error ascii_only []
           [VMap [("name", VString "second"); ("image", VString "busybox")]]
           container_without_image "sidecar" "/spec/containers"
           [{| ci_ImageInfo := busybox_latest "/spec/containers/0/image";
               ci_Name := "second" |}]
           (Some ErrNoImage)); reflexivity.
Defined.

(** ** The maps of newImages *)

Lemma lookup_map_set_same (k : string) (v : ImageInfo) (m : gomap) :
  lookup k (map_set k v m) = Some v.
Proof.
  induction m as [|[k' v'] m IH]; simpl.
  - now rewrite String.eqb_refl.
  - destruct (String.eqb_spec k' k) as [->|Hne]; simpl.
    + now rewrite String.eqb_refl.
    + destruct (String.eqb_spec k' k); [contradiction | exact IH].
Qed.

Lemma lookup_map_set_other (k k0 : string) (v : ImageInfo) (m : gomap) :
  k0 <> k -> lookup k0 (map_set k v m) = lookup k0 m.
Proof.
  intros Hne. induction m as [|[k' v'] m IH]; simpl.
  - destruct (String.eqb_spec k k0); [congruence | reflexivity].
  - destruct (String.eqb_spec k' k) as [->|Hk]; simpl.
    + destruct (String.eqb_spec k k0); [congruence | reflexivity].
    + destruct (String.eqb_spec k' k0); [reflexivity | exact IH].
Qed.

Lemma map_set_present (k : string) (v : ImageInfo) (m : gomap) :
  In k (map fst m) -> map fst (map_set k v m) = map fst m.
Proof.
  induction m as [|[k' v'] m IH]; simpl; [contradiction|].
  destruct (String.eqb_spec k' k) as [->|Hk]; simpl; [reflexivity|].
  intros [H|H]; [contradiction | now rewrite IH].
Qed.

Lemma map_set_absent (k : string) (v : ImageInfo) (m : gomap) :
  ~ In k (map fst m) -> map_set k v m = (m ++ [(k, v)])%list.
Proof.
  induction m as [|[k' v'] m IH]; simpl; [reflexivity|].
  intros H. destruct (String.eqb_spec k' k) as [->|Hk]; [tauto|].
  rewrite IH; [reflexivity | tauto].
Qed.

Lemma map_set_keys (k : string) (v : ImageInfo) (m : gomap) :
  NoDup (map fst m) ->
  NoDup (map fst (map_set k v m))
  /\ (forall x, In x (map fst (map_set k v m)) <-> x = k \/ In x (map fst m)).
Proof.
  intros Hnd. destruct (in_dec string_dec k (map fst m)) as [Hin|Hnin].
  - rewrite (map_set_present _ _ _ Hin). split; [assumption|].
    intros x. split; [tauto | intros [->|H]; assumption].
  - rewrite (map_set_absent _ _ _ Hnin), map_app. simpl. split.
    + apply NoDup_app; [assumption | repeat constructor; intros [] | ].
      intros x Hx [<-|[]]. contradiction.
    + intros x. rewrite in_app_iff. simpl. intuition congruence.
Qed.

(** The loop of [newImages] from a map [m]. *)
Lemma collect_from (imgs : list ContainerImage) (m : gomap) :
  NoDup (map fst m) ->
  let m' := fold_left
              (fun m resource =>
                 map_set (ci_Name resource) (ci_ImageInfo resource) m) imgs m in
  NoDup (map fst m')
  /\ (forall x, In x (map fst m') <-> In x (map fst m) \/ In x (map ci_Name imgs))
  /\ (forall k, lookup k m'
                = match last_named k imgs with
                  | Some i => Some i
                  | None => lookup k m
                  end)
  /\ (NoDup (map fst m ++ map ci_Name imgs) -> m' = (m ++ map entry_of imgs)%list).
Proof.
  revert m. induction imgs as [|r rest IH]; intros m Hnd; cbn [fold_left].
  - simpl. rewrite !app_nil_r. split; [assumption|]. split; [intros x; tauto|].
    split; reflexivity.
  - destruct (map_set_keys (ci_Name r) (ci_ImageInfo r) m Hnd) as [Hnd' Hkeys].
    destruct (IH _ Hnd') as (H1 & H2 & H3 & H4). cbv zeta in *.
    split; [exact H1|]. split; [|split].
    + intros x. rewrite H2, Hkeys. simpl. intuition congruence.
    + intros k. rewrite H3. simpl. destruct (last_named k rest); [reflexivity|].
      destruct (String.eqb_spec (ci_Name r) k) as [<-|Hne].
      * apply lookup_map_set_same.
      * apply lookup_map_set_other. congruence.
    + intros Hall. simpl in Hall.
      assert (Hnin : ~ In (ci_Name r) (map fst m)).
      { intros Hin. apply NoDup_remove_2 in Hall. apply Hall.
        apply in_app_iff. now left. }
      rewrite (map_set_absent _ _ _ Hnin) in *. rewrite H4.
      * now rewrite <- app_assoc.
      * rewrite map_app. simpl. rewrite <- app_assoc. simpl.
        apply NoDup_remove_1 in Hall as Hrm.
        apply NoDup_remove_2 in Hall as Hnot.
        clear - Hrm Hnot Hnin. revert Hrm Hnot.
        generalize (map ci_Name rest) as ns. generalize (map fst m) as ks.
        intros ks ns Hrm Hnot.
        induction ks as [|a ks IHk]; simpl in *.
        -- constructor; assumption.
        -- inversion Hrm; subst. constructor.
           ++ rewrite in_app_iff in *. simpl. intros [H|[H|H]]; subst; tauto.
           ++ apply IHk; [assumption | tauto].
Qed.

Lemma collect_spec (imgs : list ContainerImage) :
  NoDup (map fst (collect imgs))
  /\ (forall x, In x (map fst (collect imgs)) <-> In x (map ci_Name imgs))
  /\ (forall k, lookup k (collect imgs) = last_named k imgs)
  /\ (NoDup (map ci_Name imgs) -> collect imgs = map entry_of imgs).
Proof.
  destruct (collect_from imgs [] (NoDup_nil _)) as (H1 & H2 & H3 & H4).
  cbv zeta in *. fold (collect imgs) in *. repeat split.
  - exact H1.
  - intros H. apply H2 in H. simpl in H. tauto.
  - intros H. apply H2. now right.
  - intros k. rewrite H3. now destruct (last_named k imgs).
  - exact H4.
Qed.

Lemma collect_keeps_all (imgs : list ContainerImage) :
  keeps_all (collect imgs) imgs.
Proof.
  destruct (collect_spec imgs) as (Hnd & Hkeys & _ & Heq).
  assert (Hincl : incl (map fst (collect imgs)) (map ci_Name imgs))
    by (intros x; apply Hkeys).
  assert (Hincl' : incl (map ci_Name imgs) (map fst (collect imgs)))
    by (intros x; apply Hkeys).
  pose proof (NoDup_incl_length Hnd Hincl) as Hle. rewrite !length_map in Hle.
  split; [exact Hle|]. split; [|exact Heq]. split.
  - intros Hlen. apply (NoDup_incl_NoDup Hnd); [|exact Hincl].
    rewrite !length_map. lia.
  - intros Hn. rewrite (Heq Hn). now rewrite length_map.
Qed.

(** X1. In each map of [newImages] the keys are distinct and a name is bound
    to the image of the last container of that name in the list: an earlier
    container with the same name is overwritten. *)
Theorem newImages_last_wins
  (initContainersImgs containersImgs ephemeralContainersImgs : list ContainerImage) :
  let images :=
    newImages initContainersImgs containersImgs ephemeralContainersImgs in
  (NoDup (map fst (InitContainers images))
   /\ NoDup (map fst (Containers images))
   /\ NoDup (map fst (EphemeralContainers images)))
  /\ forall k,
      lookup k (InitContainers images) = last_named k initContainersImgs
      /\ lookup k (Containers images) = last_named k containersImgs
      /\ lookup k (EphemeralContainers images)
         = last_named k ephemeralContainersImgs.
Proof.
  cbv zeta. unfold newImages. cbn [InitContainers Containers EphemeralContainers].
  repeat split; apply collect_spec.
Qed.

(** X2. A map of [newImages] never has more entries than the list it is
    built from; it has as many exactly when the container names of the list
    are pairwise distinct, and then it holds every image of the list, in
    order. *)
Theorem newImages_keeps_all_iff
  (initContainersImgs containersImgs ephemeralContainersImgs : list ContainerImage) :
  let images :=
    newImages initContainersImgs containersImgs ephemeralContainersImgs in
  keeps_all (InitContainers images) initContainersImgs
  /\ keeps_all (Containers images) containersImgs
  /\ keeps_all (EphemeralContainers images) ephemeralContainersImgs.
Proof.
  cbv zeta. unfold newImages. cbn [InitContainers Containers EphemeralContainers].
  repeat split; apply collect_keeps_all.
Qed.

(** X3. Mutating with the inventory [newImages] builds from three lists
    gives at most one patch per container; when the names within each list
    are pairwise distinct there is exactly one patch per container image,
    whatever the order in which the maps are visited. *)
Theorem patches_of_new_inventory (range : gomap -> gomap)
  (initContainersImgs containersImgs ephemeralContainersImgs : list ContainerImage) :
  (forall m, Permutation (range m) m) ->
  let images :=
    newImages initContainersImgs containersImgs ephemeralContainersImgs in
  (List.length (image_patches range images)
   <= List.length containersImgs + List.length initContainersImgs
      + List.length ephemeralContainersImgs)%nat
  /\ (NoDup (map ci_Name initContainersImgs) ->
      NoDup (map ci_Name containersImgs) ->
      NoDup (map ci_Name ephemeralContainersImgs) ->
      Permutation (image_patches range images)
        (map patch_of
           (map ci_ImageInfo
              (containersImgs ++ initContainersImgs
               ++ ephemeralContainersImgs)%list))).
Proof.
  intros Hrange. cbv zeta. rewrite image_patches_eq. unfold newImages.
  cbn [InitContainers Containers EphemeralContainers].
  assert (HP : Permutation
                 (range (collect containersImgs)
                  ++ range (collect initContainersImgs)
                  ++ range (collect ephemeralContainersImgs))%list
                 (collect containersImgs ++ collect initContainersImgs
                  ++ collect ephemeralContainersImgs)%list)
    by (repeat apply Permutation_app; apply Hrange).
  split.
  - rewrite !length_map, (Permutation_length HP), !length_app.
    destruct (collect_keeps_all containersImgs) as [Hc _].
    destruct (collect_keeps_all initContainersImgs) as [Hi _].
    destruct (collect_keeps_all ephemeralContainersImgs) as [He _].
    clear - Hc Hi He. lia.
  - intros Ni Nc Ne. apply Permutation_map.
    rewrite (Permutation_map snd HP).
    rewrite (proj2 (proj2 (collect_keeps_all containersImgs)) Nc),
      (proj2 (proj2 (collect_keeps_all initContainersImgs)) Ni),
      (proj2 (proj2 (collect_keeps_all ephemeralContainersImgs)) Ne).
    rewrite <- !map_app, map_map. apply Permutation_refl.
Qed.

(** ** More on the loop of convertToImageInfo *)

Lemma classify_IllTyped_iff (ctr : value) :
  classify ctr = IllTyped <-> exists m, ctr = VMap m /\ unreadable m.
Proof.
  unfold unreadable. split.
  - destruct ctr as [| | | | |m]; try discriminate. unfold classify.
    intros H. exists m. split; [reflexivity|].
    destruct (lookup "name" m) as [[| | |n| |]|];
      try (left; intros s; discriminate).
    destruct (lookup "image" m) as [[| | |i| |]|]; try discriminate;
      right; eexists; (split; [reflexivity | intros s; discriminate]).
  - intros (m & -> & [Hname | (v & Himage & Hv)]).
    + now apply classify_bad_name.
    + unfold classify. rewrite Himage.
      destruct (lookup "name" m) as [[| | |n| |]|]; try reflexivity.
      destruct v; try reflexivity. now contradiction (Hv s).
Qed.

Lemma entry_eq_dec (a b : entry) : {a = b} + {a <> b}.
Proof. decide equality; apply string_dec. Qed.

Section MoreLoopProps.
Variable low : string -> string.
Variable Parse : string -> Reference + string.

(** X4. [convertToImageInfo] panics exactly when the list holds a container
    map whose "name" is absent or not a string, or whose "image" is present
    and not a string; on every other list it returns. *)
Theorem convertToImageInfo_panics_iff (cs : list value) (jsonPath : string) :
  convertToImageInfo low Parse cs jsonPath = Panics
  <-> exists m, In (VMap m) cs /\ unreadable m.
Proof.
  split.
  - intros H.
    destruct (Exists_dec (fun c => classify c = IllTyped) cs
                (fun c => entry_eq_dec (classify c) IllTyped)) as [E|E].
    + apply Exists_exists in E. destruct E as (c & Hin & Hc).
      apply classify_IllTyped_iff in Hc. destruct Hc as (m & -> & Hm). eauto.
    + exfalso. unfold convertToImageInfo in H.
      destruct (convert_loop_well_typed low Parse jsonPath cs) with
        (st := {| images := []; errs := []; index := 0%Z |})
        as (imgs & idx & Hl & _).
      { intros c Hin Hc. apply E, Exists_exists. eauto. }
      rewrite Hl in H. cbn [bind errs] in H.
      destruct (List.length _ =? 0)%nat; discriminate.
  - intros (m & Hin & Hm). unfold convertToImageInfo.
    rewrite (convert_loop_panics low Parse jsonPath cs (VMap m) Hin);
      [reflexivity|].
    apply classify_IllTyped_iff. eauto.
Qed.

Lemma convert_loop_classify (jp : string) (cs1 cs2 : list value) :
  map classify cs1 = map classify cs2 ->
  forall st, convert_loop low Parse jp cs1 st = convert_loop low Parse jp cs2 st.
Proof.
  revert cs2. induction cs1 as [|c1 cs1 IH]; intros [|c2 cs2]; simpl;
    try discriminate; [reflexivity|].
  intros [= Hc Hrest] st. rewrite !convert_step_classify, Hc.
  destruct (classify c2) as [|n i|]; cbn [bind]; try reflexivity.
  - now apply IH.
  - destruct (newImageInfo low Parse i _); cbn [bind]; now apply IH.
Qed.

(** X5. The loop reads nothing of an element but whether it is a map, its
    "name" and its "image": two lists whose elements agree on these give the
    same images, pointers and error, or both panic. *)
Theorem convertToImageInfo_reads_name_and_image (cs1 cs2 : list value)
  (jsonPath : string) :
  map classify cs1 = map classify cs2 ->
  convertToImageInfo low Parse cs1 jsonPath
  = convertToImageInfo low Parse cs2 jsonPath.
Proof.
  intros H. unfold convertToImageInfo.
  now rewrite (convert_loop_classify jsonPath cs1 cs2 H).
Qed.

(** The images the loop adds carry pointers with increasing indices, taken
    between the counter before and the counter after. *)
Lemma convert_loop_pointers (jp : string) (cs : list value) :
  forall st st',
    convert_loop low Parse jp cs st = Returns st' ->
    exists new ks,
      images st' = (images st ++ new)%list
      /\ map (fun ci => JSONPointer (ci_ImageInfo ci)) new = map (pointer_at jp) ks
      /\ StronglySorted Z.lt ks
      /\ Forall (fun k => index st <= k < index st')%Z ks
      /\ (index st <= index st' <= index st + Z.of_nat (List.length cs))%Z.
Proof.
  induction cs as [|ctr cs IH]; intros st st'.
  - intros [= <-]. exists [], []. rewrite app_nil_r. simpl.
    repeat split; try constructor; lia.
  - cbn [convert_loop]. rewrite convert_step_classify.
    destruct (classify ctr) as [|n i|]; cbn [bind]; [| |discriminate].
    + intros H. destruct (IH _ _ H) as (new & ks & Hi & Hp & Hs & Hf & Hb).
      cbn [images index] in *. exists new, ks.
      repeat split; try assumption; try (cbn [List.length]; lia).
      eapply Forall_impl; [|exact Hf]. cbv beta. intros k Hk. lia.
    + destruct (newImageInfo low Parse i (Join [jp; Itoa (index st); "image"] "/"))
        as [info|msg] eqn:E; cbn [bind]; intros H;
        destruct (IH _ _ H) as (new & ks & Hi & Hp & Hs & Hf & Hb);
        cbn [images index] in *.
      * exists ({| ci_ImageInfo := info; ci_Name := n |} :: new),
               (index st :: ks).
        rewrite Hi, <- app_assoc. cbn [map ci_ImageInfo].
        rewrite (newImageInfo_pointer _ _ _ _ _ E), Hp.
        repeat split; try reflexivity; try (cbn [List.length]; lia).
        -- constructor; [assumption|].
           eapply Forall_impl; [|exact Hf]. cbv beta. intros k Hk. lia.
        -- constructor; [lia|].
           eapply Forall_impl; [|exact Hf]. cbv beta. intros k Hk. lia.
      * exists new, ks.
        repeat split; try assumption; cbn [List.length]; lia.
Qed.
End MoreLoopProps.

(** ** Pointers *)

Lemma to_int_nonnil (z : Z) :
  Z.to_int z <> Decimal.Pos Decimal.Nil /\ Z.to_int z <> Decimal.Neg Decimal.Nil.
Proof.
  destruct z as [|p|p]; simpl; split; try discriminate;
    intros [= E]; exact (Unsigned.to_uint_nonnil p E).
Qed.

(** [strconv.Itoa] gives different integers different strings. *)
Lemma Itoa_inj (a b : Z) : Itoa a = Itoa b -> a = b.
Proof.
  unfold Itoa. intros H. apply (f_equal NilZero.int_of_string) in H.
  destruct (to_int_nonnil a) as [Ha1 Ha2], (to_int_nonnil b) as [Hb1 Hb2].
  rewrite !NilZero.isi in H by assumption.
  injection H as H. now apply to_int_inj.
Qed.

Lemma append_inj_l (a x y : string) : a ++ x = a ++ y -> x = y.
Proof. induction a as [|c a IH]; simpl; [auto | intros [= H]; auto]. Qed.

Lemma append_inj_r (x y z : string) : x ++ z = y ++ z -> x = y.
Proof.
  revert y. induction x as [|c x IH]; intros [|d y] H; simpl in H.
  - reflexivity.
  - apply (f_equal String.length) in H. simpl in H. rewrite length_append in H. lia.
  - apply (f_equal String.length) in H. simpl in H. rewrite length_append in H. lia.
  - injection H as -> H. f_equal. now apply IH.
Qed.

Lemma pointer_at_inj (jp : string) (a b : Z) :
  pointer_at jp a = pointer_at jp b -> a = b.
Proof.
  unfold pointer_at, Join. cbn [String.concat]. intros H.
  apply append_inj_l in H. apply append_inj_l in H. apply append_inj_r in H.
  now apply Itoa_inj.
Qed.

Lemma sorted_pointers_NoDup (jp : string) (ks : list Z) :
  StronglySorted Z.lt ks -> NoDup (map (pointer_at jp) ks).
Proof.
  induction 1 as [|a ks Hs IH Hf]; simpl; constructor; [|assumption].
  intros Hin. apply in_map_iff in Hin. destruct Hin as (k & Hk & Hin).
  apply pointer_at_inj in Hk. subst k.
  rewrite Forall_forall in Hf. specialize (Hf a Hin). lia.
Qed.

Section PointerProps.
Variable low : string -> string.
Variable Parse : string -> Reference + string.

(** X7. The images [convertToImageInfo] returns for one list carry the
    pointers jsonPath/k/image of strictly increasing indices k, each of them
    the index of an element of the list: the pointers are pairwise distinct
    and none points beyond the list. *)
Theorem pointers_increasing (cs : list value) (jsonPath : string)
  (imgs : list ContainerImage) (err : option string) :
  convertToImageInfo low Parse cs jsonPath = Returns (imgs, err) ->
  exists ks,
    map (fun ci => JSONPointer (ci_ImageInfo ci)) imgs
    = map (pointer_at jsonPath) ks
    /\ StronglySorted Z.lt ks
    /\ Forall (fun k => 0 <= k < Z.of_nat (List.length cs))%Z ks
    /\ NoDup (map (fun ci => JSONPointer (ci_ImageInfo ci)) imgs).
Proof.
  unfold convertToImageInfo. intros H.
  destruct (convert_loop low Parse jsonPath cs
              {| images := []; errs := []; index := 0 |}) as [st'|] eqn:E;
    [|discriminate].
  destruct (convert_loop_pointers low Parse jsonPath cs _ _ E)
    as (new & ks & Hi & Hp & Hs & Hf & Hb).
  cbn [images index app bind] in *.
  assert (imgs = new) as ->.
  { rewrite <- Hi. destruct (List.length (errs st') =? 0)%nat;
      injection H as <- _; reflexivity. }
  exists ks. repeat split; try assumption.
  - eapply Forall_impl; [|exact Hf]. cbv beta. intros k Hk. lia.
  - rewrite Hp. now apply sorted_pointers_NoDup.
Qed.

(** X8. Every image [extract] returns points into the list it read: its
    pointer is the path of that list, "/" then the extractor's fields and
    the list name joined by "/", followed by the index of one of its elements
    and "image". *)
Theorem extract_pointers (i : imageExtractor) (tag : string)
  (resource : list (string * value)) (imgs : list ContainerImage) :
  extract low Parse i tag resource = Returns imgs ->
  forall ci, In ci imgs ->
    exists cs k,
      NestedSlice resource (fields i ++ [tag])%list = Some cs
      /\ (0 <= k < Z.of_nat (List.length cs))%Z
      /\ JSONPointer (ci_ImageInfo ci)
         = pointer_at ("/" ++ Join (fields i ++ [tag])%list "/") k.
Proof.
  unfold extract, extractImageInfos, convertToImageInfo.
  destruct (NestedSlice resource (fields i ++ [tag])%list) as [cs|];
    [|intros [= <-] ci []].
  destruct (convert_loop low Parse _ cs _) as [st'|] eqn:E; [|discriminate].
  destruct (convert_loop_pointers low Parse _ cs _ _ E)
    as (new & ks & Hi & Hp & _ & Hf & Hb).
  cbn [images index app bind] in *. intros H ci Hin.
  assert (imgs = new) as ->.
  { rewrite <- Hi. destruct (List.length (errs st') =? 0)%nat;
      injection H as <-; reflexivity. }
  apply (in_map (fun ci => JSONPointer (ci_ImageInfo ci))) in Hin.
  rewrite Hp in Hin. apply in_map_iff in Hin. destruct Hin as (k & Hk & Hin).
  rewrite Forall_forall in Hf. specialize (Hf k Hin).
  exists cs, k. repeat split; try lia. now rewrite Hk.
Qed.

(** X9. A container whose image does not parse leaves no trace but its
    message: the error is not nil, and the images returned, with their
    pointers, are those returned for the list without that container. *)
Theorem failed_container_leaves_no_trace (pre post : list value) (ctr : value)
  (name image jsonPath : string) (imgs : list ContainerImage)
  (err : option string) :
  classify ctr = Container name image ->
  parses low Parse (name, image) = false ->
  convertToImageInfo low Parse (pre ++ ctr :: post)%list jsonPath
  = Returns (imgs, err) ->
  err <> None
  /\ exists err0,
      convertToImageInfo low Parse (pre ++ post)%list jsonPath
      = Returns (imgs, err0).
Proof.
  intros Hc Hp H. unfold parses in Hp. cbn [snd] in Hp.
  destruct (newImageInfo low Parse image "") as [i0|msg] eqn:E0; [discriminate|].
  assert (Hfail : forall p, newImageInfo low Parse image p = inr msg)
    by (intros p; exact (newImageInfo_inr low Parse _ _ p _ E0)).
  unfold convertToImageInfo in *.
  destruct (convert_loop low Parse jsonPath (pre ++ ctr :: post)%list
              {| images := []; errs := []; index := 0 |}) as [st'|] eqn:E;
    [|discriminate].
  destruct (failed_entry low Parse jsonPath pre post ctr name image msg _ _
              Hc Hfail E) as (before & after & Herrs & ->).
  cbn [bind images errs] in *. rewrite Herrs in H.
  replace (List.length (before ++ msg :: after) =? 0)%nat with false in H
    by (rewrite length_app; simpl; symmetry; apply Nat.eqb_neq; lia).
  injection H as <- <-. split; [discriminate|].
  destruct (List.length (before ++ after) =? 0)%nat; eauto.
Qed.
End PointerProps.

(** ** More on newImageInfo and addDefaultDomain *)

Lemma last_index_byte_None (c : ascii) (s : string) :
  last_index_byte c s = None -> ~ occurs c s.
Proof.
  induction s as [|a s IH]; simpl; [tauto|].
  destruct (last_index_byte c s); [discriminate|].
  destruct (Ascii.eqb_spec a c) as [->|Hne]; [discriminate|].
  intros _ [H|H]; [contradiction | now apply IH].
Qed.

Lemma last_index_byte_Some (c : ascii) (s : string) (n : nat) :
  last_index_byte c s = Some n ->
  s = slice_to s n ++ String c (slice_from s (S n))
  /\ ~ occurs c (slice_from s (S n)).
Proof.
  revert n. induction s as [|a s IH]; intros n; [discriminate|].
  cbn [last_index_byte]. destruct (last_index_byte c s) as [m|] eqn:E.
  - intros [= <-]. destruct (IH m eq_refl) as [Heq Hno].
    rewrite slice_to_cons, slice_from_cons, append_cons. split; [|exact Hno].
    f_equal. exact Heq.
  - destruct (Ascii.eqb_spec a c) as [->|Hne]; [|discriminate].
    intros [= <-]. split; [reflexivity|].
    rewrite slice_from_cons. simpl. now apply last_index_byte_None.
Qed.

(** The short name is the part of the path after its last '/'. *)
Lemma short_name_spec (path : string) :
  ~ occurs "/" (short_name path)
  /\ exists pre,
      path = pre ++ short_name path
      /\ (pre = "" \/ exists q, pre = q ++ "/").
Proof.
  unfold short_name, LastIndex.
  destruct (last_index_byte "/" path) as [n|] eqn:E.
  - replace (Z.to_nat (Z.of_nat n + 1)) with (S n) by lia.
    destruct (last_index_byte_Some _ _ _ E) as [Heq Hno]. split; [exact Hno|].
    exists (slice_to path n ++ "/"). split.
    + rewrite append_assoc. exact Heq.
    + right. eauto.
  - change (Z.to_nat (-1 + 1)) with 0%nat.
    replace (slice_from path 0) with path by (now destruct path).
    split; [now apply last_index_byte_None|]. exists "". split; [reflexivity | now left].
Qed.

Section MoreImageProps.
Variable low : string -> string.
Variable Parse : string -> Reference + string.

(** X10. An image [newImageInfo] returns never has both an empty tag and an
    empty digest, so its canonical string is registry/path followed either
    by ':' and a non-empty tag or by '@' and a non-empty digest. *)
Theorem newImageInfo_tag_or_digest (image jsonPointer : string)
  (info : ImageInfo) :
  newImageInfo low Parse image jsonPointer = inl info ->
  (Digest info = "" /\ Tag info <> ""
   /\ String_ info = Registry info ++ "/" ++ Path info ++ ":" ++ Tag info)
  \/ (Digest info <> ""
      /\ String_ info = Registry info ++ "/" ++ Path info ++ "@" ++ Digest info).
Proof.
  unfold newImageInfo.
  destruct (Parse (addDefaultDomain low image)) as [ref|e]; [|discriminate].
  set (tg := match tagged ref with Some t => t | None => "" end).
  set (dg := match digested ref with Some d => d | None => "" end).
  destruct (named ref) as [[d p]|]; intros [= <-]; unfold String_;
    cbn [Registry Path Tag Digest];
    destruct (String.eqb_spec dg "") as [Ed|Ed]; cbn [negb andb];
    try (right; split; [assumption | reflexivity]);
    left; (split; [assumption|]); (split; [|reflexivity]);
    destruct (String.eqb_spec tg ""); [discriminate | assumption
                                      | discriminate | assumption].
Qed.

(** X11. The name of an image [newImageInfo] returns is the last segment of
    its path: it holds no '/', and the path is the name itself or ends with
    '/' followed by the name. *)
Theorem newImageInfo_name_last_segment (image jsonPointer : string)
  (info : ImageInfo) :
  newImageInfo low Parse image jsonPointer = inl info ->
  ~ occurs "/" (Name info)
  /\ exists pre,
      Path info = pre ++ Name info
      /\ (pre = "" \/ exists q, pre = q ++ "/").
Proof.
  unfold newImageInfo.
  destruct (Parse (addDefaultDomain low image)) as [ref|e]; [|discriminate].
  destruct (named ref) as [[d p]|]; intros [= <-]; cbn [Name Path].
  - exact (short_name_spec p).
  - split; [simpl; tauto|]. exists "". split; [reflexivity | now left].
Qed.

Lemma addDefaultDomain_has_segment (s : string) :
  exists seg,
    leading_segment (addDefaultDomain low s) seg /\ ~ not_a_domain low seg.
Proof.
  destruct (addDefaultDomain_cases low s) as [[_ ->]|[HD ->]].
  - exists "docker.io". split.
    + split; [|exists s; reflexivity]. simpl.
      intros H; repeat destruct H as [H|H]; try discriminate; exact H.
    + intros [Hdot _]. apply Hdot. simpl. tauto.
  - destruct (index_byte "/" s) as [n|] eqn:E.
    + exists (slice_to s n). pose proof (index_leading_segment _ _ E) as Hl.
      split; [exact Hl|]. intros Hn. apply HD. right. eauto.
    + exfalso. apply HD. left. now apply index_byte_None.
Qed.

(** X13. After [addDefaultDomain] a string has a '/', and the segment before
    the first one has a '.' or a ':', or is "localhost", or is changed by
    lower-casing; applying [addDefaultDomain] again changes nothing. *)
Theorem addDefaultDomain_idempotent (s : string) :
  (exists seg,
      leading_segment (addDefaultDomain low s) seg /\ ~ not_a_domain low seg)
  /\ addDefaultDomain low (addDefaultDomain low s) = addDefaultDomain low s.
Proof.
  destruct (addDefaultDomain_has_segment s) as (seg & Hl & Hn).
  split; [eauto|]. exact (addDefaultDomain_keeps low _ seg Hl Hn).
Qed.

Lemma extractors_start_with_spec (kind : string) (e : imageExtractor) :
  lookup kind extractors = Some e -> exists rest, fields e = "spec" :: rest.
Proof.
  unfold extractors. cbn [lookup].
  repeat match goal with
         | |- context [if ?b then _ else _] => destruct b
         end; intros [= <-]; cbn [fields]; eauto.
Qed.

(** X15. Extraction skips the lists it does not find: when none of the
    three lists is a slice under the extractor's prefix the result is three
    empty lists and no panic; this is so for every manifest of a recognised
    kind that has no "spec". *)
Theorem no_lists_no_images (resource : list (string * value)) :
  ((forall tag,
       In tag ["initContainers"; "containers"; "ephemeralContainers"] ->
       NestedSlice resource
         (fields (extractors_at (GetKind resource)) ++ [tag])%list = None) ->
   extractImageInfo low Parse resource = Returns ([], [], []))
  /\ (forall e,
         lookup (GetKind resource) extractors = Some e ->
         lookup "spec" resource = None ->
         extractImageInfo low Parse resource = Returns ([], [], [])).
Proof.
  assert (H1 : (forall tag,
                   In tag ["initContainers"; "containers"; "ephemeralContainers"] ->
                   NestedSlice resource
                     (fields (extractors_at (GetKind resource)) ++ [tag])%list
                   = None) ->
               extractImageInfo low Parse resource = Returns ([], [], [])).
  { intros H. unfold extractImageInfo, extract.
    rewrite !H by (simpl; tauto). reflexivity. }
  split; [exact H1|].
  intros e He Hspec. apply H1. intros tag _. unfold extractors_at. rewrite He.
  destruct (extractors_start_with_spec _ _ He) as [rest ->].
  unfold NestedSlice. cbn [app NestedFieldNoCopy]. now rewrite Hspec.
Qed.
End MoreImageProps.

(** ** The client decorators *)

Section DecoratorProps.
Variables rest_Interface PolicyExceptionInterface : Type.
Variables MetricsConfigManager ClientType Recorder Logger : Type.
Variable NamespacedClientQueryRecorder :
  MetricsConfigManager -> string -> string -> ClientType -> Recorder.
Variable policyexceptions_WithMetrics :
  PolicyExceptionInterface -> Recorder -> PolicyExceptionInterface.
Variable policyexceptions_WithTracing :
  PolicyExceptionInterface -> string -> string -> PolicyExceptionInterface.
Variable policyexceptions_WithLogging :
  PolicyExceptionInterface -> Logger -> PolicyExceptionInterface.
Variable WithValues : Logger -> string -> string -> Logger.

(** X16. However the three decorators are stacked on a client, RESTClient is
    that of the innermost client, and PolicyExceptions of a namespace is the
    innermost client's resource client for the same namespace, wrapped by the
    corresponding decorators of policyexceptions in the same order. *)
Theorem decorators_forward
  (ds : list (client.decorator MetricsConfigManager ClientType Logger))
  (inner : client.KyvernoV2Interface rest_Interface PolicyExceptionInterface) :
  let wrap :=
    client.decorate rest_Interface PolicyExceptionInterface MetricsConfigManager
      ClientType Recorder Logger NamespacedClientQueryRecorder
      policyexceptions_WithMetrics policyexceptions_WithTracing
      policyexceptions_WithLogging WithValues in
  client.RESTClient _ _ (fold_right wrap inner ds) = client.RESTClient _ _ inner
  /\ forall namespace,
      client.PolicyExceptions _ _ (fold_right wrap inner ds) namespace
      = fold_right
          (client.decorate_exceptions PolicyExceptionInterface
             MetricsConfigManager ClientType Recorder Logger
             NamespacedClientQueryRecorder policyexceptions_WithMetrics
             policyexceptions_WithTracing policyexceptions_WithLogging
             WithValues namespace)
          (client.PolicyExceptions _ _ inner namespace) ds.
Proof.
  cbv zeta. induction ds as [|d ds [IH1 IH2]]; [split; reflexivity|].
  cbn [fold_right]. split.
  - destruct d; cbn; exact IH1.
  - intros namespace. destruct d; cbn; now rewrite IH2.
Qed.
End DecoratorProps.

(** ** The list path and prefixes of a list *)

Section PathProps.
Variable low : string -> string.
Variable Parse : string -> Reference + string.

Lemma newImageInfo_relocate (image jp jp' : string) (i : ImageInfo) :
  newImageInfo low Parse image jp = inl i ->
  newImageInfo low Parse image jp' = inl (relocate i jp').
Proof.
  unfold newImageInfo.
  destruct (Parse (addDefaultDomain low image)) as [ref|e]; [|discriminate].
  destruct (named ref) as [[d p]|]; intros [= <-]; reflexivity.
Qed.

Lemma convert_loop_paths (jp1 jp2 : string) (cs : list value) :
  forall st1 st2,
    Forall2 same_but_pointer (images st1) (images st2) ->
    errs st1 = errs st2 -> index st1 = index st2 ->
    match convert_loop low Parse jp1 cs st1, convert_loop low Parse jp2 cs st2 with
    | Returns a, Returns b =>
        Forall2 same_but_pointer (images a) (images b)
        /\ errs a = errs b /\ index a = index b
    | Panics, Panics => True
    | _, _ => False
    end.
Proof.
  induction cs as [|ctr cs IH]; intros st1 st2 Hi He Hn; [simpl; auto|].
  cbn [convert_loop]. rewrite !convert_step_classify.
  destruct (classify ctr) as [|n i|]; cbn [bind]; [| |exact I].
  - apply IH; cbn [images errs index]; congruence.
  - destruct (newImageInfo low Parse i (Join [jp1; Itoa (index st1); "image"] "/"))
      as [info|msg] eqn:E; cbn [bind].
    + rewrite (newImageInfo_relocate _ _
                 (Join [jp2; Itoa (index st2); "image"] "/") _ E).
      cbn [bind]. apply IH; cbn [images errs index]; try congruence.
      apply Forall2_app; [assumption|]. constructor; [|constructor].
      split; reflexivity.
    + rewrite (newImageInfo_inr low Parse _ _
                 (Join [jp2; Itoa (index st2); "image"] "/") _ E).
      cbn [bind]. apply IH; cbn [images errs index]; congruence.
Qed.

(** X12. The path of the list only enters the pointers: for two paths
    [convertToImageInfo] returns the same container names, registries, names,
    paths, tags and digests and the same error, or panics for both. *)
Theorem jsonPath_only_in_pointers (cs : list value) (jsonPath1 jsonPath2 : string) :
  same_but_pointers
    (convertToImageInfo low Parse cs jsonPath1)
    (convertToImageInfo low Parse cs jsonPath2).
Proof.
  unfold same_but_pointers, convertToImageInfo.
  pose proof (convert_loop_paths jsonPath1 jsonPath2 cs
                {| images := []; errs := []; index := 0 |}
                {| images := []; errs := []; index := 0 |}
                (Forall2_nil _) eq_refl eq_refl) as H.
  destruct (convert_loop low Parse jsonPath1 cs _) as [a|],
           (convert_loop low Parse jsonPath2 cs _) as [b|];
    cbn [bind]; try contradiction; try exact I.
  destruct H as (Hi & He & _). rewrite He.
  destruct (List.length (errs b) =? 0)%nat; split; auto.
Qed.

(** X14. What is returned for a list extends what is returned for each of
    its prefixes: when [convertToImageInfo] returns for a list it returns for
    the prefix too, with images that come first, pointers included, in the
    result for the whole list, and an error that is nil if the one for the
    whole list is. *)
Theorem convertToImageInfo_prefix (a b : list value) (jsonPath : string)
  (imgs : list ContainerImage) (err : option string) :
  convertToImageInfo low Parse (a ++ b)%list jsonPath = Returns (imgs, err) ->
  exists imgsA errA rest,
    convertToImageInfo low Parse a jsonPath = Returns (imgsA, errA)
    /\ imgs = (imgsA ++ rest)%list
    /\ (err = None -> errA = None).
Proof.
  unfold convertToImageInfo. rewrite convert_loop_app.
  destruct (convert_loop low Parse jsonPath a _) as [st1|]; [|discriminate].
  cbn [bind]. destruct st1 as [i1 e1 n1]. rewrite convert_loop_frame.
  destruct (convert_loop low Parse jsonPath b
              {| images := i1; errs := []; index := n1 |}) as [st2|] eqn:E;
    [|discriminate].
  destruct (convert_loop_pointers low Parse jsonPath b _ _ E)
    as (new & _ & Hi & _).
  cbn [bind images errs index] in *. intros H.
  exists i1, (if (List.length e1 =? 0)%nat then None else Some (Join e1 ";")), new.
  split; [destruct (List.length e1 =? 0)%nat; reflexivity|].
  destruct e1 as [|m e1]; cbn [app List.length Nat.eqb] in *.
  - split; [|reflexivity].
    destruct (List.length (errs st2) =? 0)%nat; injection H as <- _; exact Hi.
  - injection H as <- <-. split; [exact Hi | discriminate].
Qed.
End PathProps.

(** ** Instances of the further properties *)

Lemma patches_of_new_inventory_witness :
  Permutation
    (image_patches (fun m => m)
       (newImages []
          [{| ci_ImageInfo := busybox_latest "/spec/containers/0/image";
              ci_Name := "second" |}] []))
    (map patch_of
       (map ci_ImageInfo
          ([{| ci_ImageInfo := busybox_latest "/spec/containers/0/image";
               ci_Name := "second" |}] ++ [] ++ [])%list)).
Proof.
  apply (proj2 (patches_of_new_inventory (fun m => m) []
                  [{| ci_ImageInfo := busybox_latest "/spec/containers/0/image";
                      ci_Name := "second" |}] []
                  (fun m => Permutation_refl m))).
  - constructor.
  - repeat constructor. intros [].
  - constructor.
Defined.

Lemma convertToImageInfo_panics_iff_witness :
  convertToImageInfo ascii_only (Parse ascii_only)
    [VMap container_without_name] "/spec/containers" = Panics.
Proof.
  apply (proj2 (convertToImageInfo_panics_iff ascii_only (Parse ascii_only)
                  [VMap container_without_name] "/spec/containers")).
  exists container_without_name. split; [now left|].
  left. intros s. discriminate.
Defined.

Lemma convertToImageInfo_reads_name_and_image_witness :
  convertToImageInfo ascii_only (Parse ascii_only) bad_first_with_ports
    "/spec/containers"
  = convertToImageInfo ascii_only (Parse ascii_only) bad_first_containers
      "/spec/containers".
Proof.
  apply convertToImageInfo_reads_name_and_image. reflexivity.
Defined.

Lemma pointer_of_container_witness :
  exists before info err,
    convertToImageInfo ascii_only (Parse ascii_only)
      ([VMap [("name", VString "first"); ("image", VString "bad image")]]
       ++ [VMap [("name", VString "second"); ("image", VString "busybox")]])%list
      "/spec/containers"
    = Returns
        ((before ++ [{| ci_ImageInfo := info; ci_Name := "second" |}])%list, err)
    /\ Forall2 (result_of ascii_only (Parse ascii_only)) before
         (filter (parses ascii_only (Parse ascii_only))
            (containers_of
               [VMap [("name", VString "first");
                      ("image", VString "bad image")]]))
    /\ newImageInfo ascii_only (Parse ascii_only) "busybox" (JSONPointer info)
       = inl info
    /\ JSONPointer info
       = Join ["/spec/containers";
               Itoa (Z.of_nat
                       (List.length
                          [VMap [("name", VString "first");
                                 ("image", VString "bad image")]])
                     - Z.of_nat
                         (List.length
                            (parse_errors ascii_only (Parse ascii_only)
                               (containers_of
                                  [VMap [("name", VString "first");
                                         ("image", VString "bad image")]]))));
               "image"] "/".
Proof.
  apply (pointer_of_container ascii_only (Parse ascii_only) "/spec/containers"
           [VMap [("name", VString "first"); ("image", VString "bad image")]]
           (VMap [("name", VString "second"); ("image", VString "busybox")])
           "second" "busybox").
  - intros c [<-|[]]. discriminate.
  - reflexivity.
  - reflexivity.
Defined.

Lemma pointers_increasing_witness :
  exists ks,
    map (fun ci => JSONPointer (ci_ImageInfo ci))
      [{| ci_ImageInfo := busybox_latest "/spec/containers/0/image";
          ci_Name := "second" |}]
    = map (pointer_at "/spec/containers") ks
    /\ StronglySorted Z.lt ks
    /\ Forall (fun k => 0 <= k < Z.of_nat (List.length bad_first_containers))%Z ks
    /\ NoDup
         (map (fun ci => JSONPointer (ci_ImageInfo ci))
            [{| ci_ImageInfo := busybox_latest "/spec/containers/0/image";
                ci_Name := "second" |}]).
Proof.
  apply (pointers_increasing ascii_only (Parse ascii_only) bad_first_containers
           "/spec/containers" _ (Some ErrBadImage)).
  reflexivity.
Defined.

Lemma extract_pointers_witness :
  exists cs k,
    NestedSlice pod_with_bad_first (["spec"] ++ ["containers"])%list = Some cs
    /\ (0 <= k < Z.of_nat (List.length cs))%Z
    /\ "/spec/containers/0/image"
       = pointer_at ("/" ++ Join (["spec"] ++ ["containers"])%list "/") k.
Proof.
  apply (extract_pointers ascii_only (Parse ascii_only)
           {| fields := ["spec"] |} "containers" pod_with_bad_first
           [{| ci_ImageInfo := busybox_latest "/spec/containers/0/image";
               ci_Name := "second" |}] eq_refl
           {| ci_ImageInfo := busybox_latest "/spec/containers/0/image";
              ci_Name := "second" |}).
  now left.
Defined.

Lemma failed_container_leaves_no_trace_witness :
  Some ErrBadImage <> None
  /\ exists err0,
      convertToImageInfo ascii_only (Parse ascii_only)
        ([] ++ [VMap [("name", VString "second"); ("image", VString "busybox")]])%list
        "/spec/containers"
      = Returns
          ([{| ci_ImageInfo := busybox_latest "/spec/containers/0/image";
               ci_Name := "second" |}], err0).
Proof.
  apply (failed_container_leaves_no_trace ascii_only (Parse ascii_only) []
           [VMap [("name", VString "second"); ("image", VString "busybox")]]
           (VMap [("name", VString "first"); ("image", VString "bad image")])
           "first" "bad image" "/spec/containers"); reflexivity.
Defined.

Lemma newImageInfo_tag_or_digest_witness :
  (Digest (busybox_latest "/p") = "" /\ Tag (busybox_latest "/p") <> ""
   /\ String_ (busybox_latest "/p")
      = Registry (busybox_latest "/p") ++ "/" ++ Path (busybox_latest "/p")
        ++ ":" ++ Tag (busybox_latest "/p"))
  \/ (Digest (busybox_latest "/p") <> ""
      /\ String_ (busybox_latest "/p")
         = Registry (busybox_latest "/p") ++ "/" ++ Path (busybox_latest "/p")
           ++ "@" ++ Digest (busybox_latest "/p")).
Proof.
  apply (newImageInfo_tag_or_digest ascii_only (Parse ascii_only) "busybox" "/p").
  reflexivity.
Defined.

Lemma newImageInfo_name_last_segment_witness :
  ~ occurs "/" "app"
  /\ exists pre, "ns/app" = pre ++ "app" /\ (pre = "" \/ exists q, pre = q ++ "/").
Proof.
  apply (newImageInfo_name_last_segment ascii_only (Parse ascii_only)
           "myregistry.io:5000/ns/app:v2" "/p"
           {| Registry := "myregistry.io:5000"; Name := "app"; Path := "ns/app";
              Tag := "v2"; Digest := ""; JSONPointer := "/p" |}).
  reflexivity.
Defined.

Lemma no_lists_no_images_witness :
  extractImageInfo ascii_only (Parse ascii_only) [("kind", VString "Pod")]
  = Returns ([], [], []).
Proof.
  apply (proj2 (no_lists_no_images ascii_only (Parse ascii_only)
                  [("kind", VString "Pod")]) {| fields := ["spec"] |});
    reflexivity.
Defined.

Lemma convertToImageInfo_prefix_witness :
  exists imgsA errA rest,
    convertToImageInfo ascii_only (Parse ascii_only)
      [VMap [("name", VString "first"); ("image", VString "bad image")]]
      "/spec/containers" = Returns (imgsA, errA)
    /\ [{| ci_ImageInfo := busybox_latest "/spec/containers/0/image";
           ci_Name := "second" |}] = (imgsA ++ rest)%list
    /\ (Some ErrBadImage = None -> errA = None).
Proof.
  apply (convertToImageInfo_prefix ascii_only (Parse ascii_only)
           [VMap [("name", VString "first"); ("image", VString "bad image")]]
           [VMap [("name", VString "second"); ("image", VString "busybox")]]
           "/spec/containers").
  reflexivity.
Defined.
